(** * The in-memory write buffer manager (db/insert/MemManagerImpl.cpp)

    A shallow embedding of [MemManagerImpl]: the directory of mutable
    buffers [mem_id_map_], the queue of immutable buffers
    [immu_mem_list_], and the operations that insert, delete, promote,
    flush and erase.  [MemTable] objects are shared through
    [std::shared_ptr]; they live in an explicit store and the two
    collections hold addresses, so that object identity and aliasing are
    those of the source.

    The two mutexes only order concurrent callers; in the sequential
    model of the operations acquiring and releasing them does nothing.
    Their events are modelled apart, as the lock paths of the operations
    and a machine that interleaves callers.

    An iterator of [mem_id_map_] designates a node of the map; it can be
    read as long as that node is in the map, and erasing the node
    invalidates it.  Reading an invalid iterator, like following an
    address that is not the address of an object, has no defined
    result. *)

From stdpp Require Import gmap strings list fin_maps sorting.
From Stdlib Require Import ZArith.

Set Default Proof Using "Type".

(** ** Status values (utils/Status.h, utils/Error.h) *)

(** Modelled from the spec: the error kinds of utils/Error.h, which is not
    part of the sources at hand.  The manager itself builds [DB_ERROR] and
    [DB_NOT_FOUND]; any other code comes out of a MemTable call. *)
Inductive ErrorCode : Type :=
| DB_SUCCESS
| DB_ERROR
| DB_NOT_FOUND
| OtherError (c : Z).

Record Status : Type := MkStatus { code : ErrorCode; message : string }.

(** [Status::OK()] *)
Definition Status_OK : Status := MkStatus DB_SUCCESS "".

(** [Status::ok()] *)
Definition ok (st : Status) : bool :=
  match code st with
  | DB_SUCCESS => true
  | _ => false
  end.

Definition IDNumber : Type := Z.
Definition IDNumbers : Type := list IDNumber.

(** Addresses of [MemTable] objects (the targets of [MemTablePtr]). *)
Definition ptr : Type := positive.

(** [size_t] arithmetic wraps around at 64 bits. *)
Definition wrap64 (z : Z) : Z := (z mod 2 ^ 64)%Z.

(** Modelled from the spec: a batch is its vectors (count and payload) and
    a parallel, possibly empty, array of ids. *)
Record VectorsData (P : Type) : Type := MkVectorsData {
  vector_count_ : nat;
  vectors_payload : P;
  id_array_ : IDNumbers
}.
Arguments MkVectorsData {P} _ _ _.
Arguments vector_count_ {P} _.
Arguments vectors_payload {P} _.
Arguments id_array_ {P} _.

(** ** The collaborators

    [MemTable], [VectorSource] and [VectorsData] are declared in files
    that are not at hand.  Their behaviour is a parameter of the model:
    every call the manager makes into them is a field of [Collab].
    [Env] is whatever those calls share besides the buffer itself (the
    metadata catalog, the storage, the id generator).  [ptr] and the
    addresses of [MemTable] objects are needed by the last two fields. *)
Record Collab : Type := MkCollab {
  Env : Type;
  Body : Type;
  Payload : Type;
  VectorSource : Type;
  (** [MemTable(table_id, meta_, options_)] *)
  MemTable_init : string → Body;
  (** [VectorSource(vectors)] *)
  VectorSource_init : VectorsData Payload → VectorSource;
  (** [source->GetVectorIds()] *)
  GetVectorIds : VectorSource → IDNumbers;
  (** [mem->Add(source)] *)
  MemTable_Add : Env → string → Body → VectorSource → Status * Env * Body * VectorSource;
  (** [mem->Delete(id)] *)
  MemTable_Delete : Env → string → Body → IDNumber → Status * Env * Body;
  (** [mem->Serialize(wal_lsn)] *)
  MemTable_Serialize : Env → string → Body → Z → Status * Env * Body;
  (** [mem->Empty()] *)
  MemTable_Empty : Body → bool;
  (** [mem->GetCurrentMem()] *)
  MemTable_GetCurrentMem : Body → Z;
  (** [options_.insert_buffer_size_] *)
  insert_buffer_size_ : Z;
  (** [for (auto& kv : mem_id_map_)]: the order in which [MemIdMap] (declared
      in a header that is not at hand) is walked; whatever the container,
      a walk visits every entry once *)
  MemIdMap_walk : gmap string ptr → list (string * ptr);
  MemIdMap_walk_perm : ∀ m, MemIdMap_walk m ≡ₚ map_to_list m
}.

(** Modelled from the spec: a [MemTable] keeps the table id it was built
    with ([GetTableId]); the calls above change its body only. *)
Record MemTable (C : Collab) : Type := MkMemTable {
  table_id_ : string;
  mem_body : Body C
}.
Arguments MkMemTable {C} _ _.
Arguments table_id_ {C} _.
Arguments mem_body {C} _.

(** The calls made into MemTable objects, in the order they happen. *)
Inductive Call : Type :=
| CallAdd (p : ptr)
| CallDelete (p : ptr) (id : IDNumber)
| CallSerialize (p : ptr) (wal_lsn : Z).

(** ** The manager's state *)
Record State (C : Collab) : Type := MkState {
  mem_id_map_ : gmap string ptr;
  immu_mem_list_ : list ptr;
  heap : gmap ptr (MemTable C);
  env : Env C;
  calls : list Call
}.
Arguments MkState {C} _ _ _ _ _.
Arguments mem_id_map_ {C} _.
Arguments immu_mem_list_ {C} _.
Arguments heap {C} _.
Arguments env {C} _.
Arguments calls {C} _.

(** ** Outcomes

    An operation either returns, or its behaviour is undefined (an object
    is reached through an address or an iterator that is no longer valid),
    or it is still waiting when the fuel of the model runs out. *)
Inductive outcome (A : Type) : Type :=
| Defined (a : A)
| Undefined
| Waiting.
Arguments Defined {A} _.
Arguments Undefined {A}.
Arguments Waiting {A}.

(** Iterators of [mem_id_map_]: [end()] or the node of a key. *)
Inductive iterator : Type :=
| It_end
| It_at (k : string).

(** [m.find(k)] *)
Definition map_find (m : gmap string ptr) (k : string) : iterator :=
  match m !! k with
  | Some _ => It_at k
  | None => It_end
  end.

(** [m.erase(it)] *)
Definition map_erase_at (m : gmap string ptr) (it : iterator) : gmap string ptr :=
  match it with
  | It_at k => delete k m
  | It_end => m
  end.

(** [it->second]: the node must still be in the map the iterator points
    into; an erased node has no value to read. *)
Definition iter_second (m : gmap string ptr) (it : iterator) : option ptr :=
  match it with
  | It_at k => m !! k
  | It_end => None
  end.

(** [m.insert(kv)]: an existing key keeps its value. *)
Definition map_insert_kv (kv : string * ptr) (m : gmap string ptr) : gmap string ptr :=
  match m !! kv.1 with
  | Some _ => m
  | None => <[kv.1 := kv.2]> m
  end.

Section Manager.
Context {C : Collab}.

Definition M (A : Type) : Type := State C → outcome (A * State C).

Definition ret {A} (a : A) : M A := λ s, Defined (a, s).

Definition bind {A B} (m : M A) (k : A → M B) : M B :=
  λ s, match m s with
       | Defined (a, s') => k a s'
       | Undefined => Undefined
       | Waiting => Waiting
       end.

Notation "'let*' x ':=' m 'in' k" := (bind m (λ x, k))
  (at level 10, x name, m at level 100, k at level 200).
Notation "m ';;' k" := (bind m (λ _, k))
  (at level 100, k at level 200, right associativity).

Definition get : M (State C) := λ s, Defined (s, s).
Definition undefined {A} : M A := λ _, Undefined.

(** [*p] for a [MemTablePtr]. *)
Definition deref (p : ptr) : M (MemTable C) :=
  λ s, match heap s !! p with
       | Some mt => Defined (mt, s)
       | None => Undefined
       end.

Definition set_mem_id_map (m : gmap string ptr) : M unit :=
  λ s, Defined (tt, MkState m (immu_mem_list_ s) (heap s) (env s) (calls s)).

Definition set_immu_mem_list (l : list ptr) : M unit :=
  λ s, Defined (tt, MkState (mem_id_map_ s) l (heap s) (env s) (calls s)).

(** [immu_mem_list_.push_back(p)] *)
Definition push_back (p : ptr) : M unit :=
  λ s, Defined (tt, MkState (mem_id_map_ s) (immu_mem_list_ s ++ [p]) (heap s) (env s) (calls s)).

(** [std::make_shared<MemTable>(table_id, meta_, options_)]: a new object
    at an address no object has. *)
Definition make_shared (table_id : string) : M ptr :=
  λ s, let p := fresh (dom (heap s)) in
       Defined (p, MkState (mem_id_map_ s) (immu_mem_list_ s)
                      (<[p := MkMemTable table_id (MemTable_init C table_id)]> (heap s))
                      (env s) (calls s)).

(** A call into the object at [p]: the object and the environment are
    updated, the call is logged. *)
Definition call_on {R} (p : ptr) (c : Call)
    (f : Env C → string → Body C → R * Env C * Body C) : M R :=
  λ s, match heap s !! p with
       | Some mt =>
           let '(r, e', b') := f (env s) (table_id_ mt) (mem_body mt) in
           Defined (r, MkState (mem_id_map_ s) (immu_mem_list_ s)
                          (<[p := MkMemTable (table_id_ mt) b']> (heap s))
                          e' (calls s ++ [c]))
       | None => Undefined
       end.

(** *** GetMemByTable *)
Definition GetMemByTable (table_id : string) : M ptr :=
  let* s := get in
  match map_find (mem_id_map_ s) table_id with
  | It_at k =>
      match iter_second (mem_id_map_ s) (It_at k) with
      | Some p => ret p
      | None => undefined
      end
  | It_end =>
      let* p := make_shared table_id in
      let* s1 := get in
      set_mem_id_map (<[table_id := p]> (mem_id_map_ s1));;
      ret p
  end.

(** *** InsertVectorsNoLock *)
Definition InsertVectorsNoLock (table_id : string) (vectors : VectorsData (Payload C))
  : M (Status * VectorsData (Payload C)) :=
  let* mem := GetMemByTable table_id in
  let source := VectorSource_init C vectors in
  let* r :=
    call_on mem (CallAdd mem)
      (λ e t b, let '(st, e', b', src') := MemTable_Add C e t b source in
                ((st, src'), e', b')) in
  let status := r.1 in
  let source' := r.2 in
  if ok status then
    match id_array_ vectors with
    | [] => ret (status, MkVectorsData (vector_count_ vectors) (vectors_payload vectors)
                           (GetVectorIds C source'))
    | _ :: _ => ret (status, vectors)
    end
  else ret (status, vectors).

(** *** GetCurrentMutableMem, GetCurrentImmutableMem, GetCurrentMem *)
Fixpoint sum_mem (l : list ptr) (total_mem : Z) : M Z :=
  match l with
  | [] => ret total_mem
  | p :: rest =>
      let* mt := deref p in
      sum_mem rest (wrap64 (total_mem + MemTable_GetCurrentMem C (mem_body mt)))
  end.

Definition GetCurrentMutableMem : M Z :=
  let* s := get in sum_mem (MemIdMap_walk C (mem_id_map_ s)).*2 0%Z.

Definition GetCurrentImmutableMem : M Z :=
  let* s := get in sum_mem (immu_mem_list_ s) 0%Z.

Definition GetCurrentMem : M Z :=
  let* a := GetCurrentMutableMem in
  let* b := GetCurrentImmutableMem in
  ret (wrap64 (a + b)).

(** *** InsertVectors

    The gate samples the footprint and sleeps while it is above the
    ceiling; one unit of fuel per sample. *)
Fixpoint InsertVectors (fuel : nat) (table_id : string) (vectors : VectorsData (Payload C))
  : M (Status * VectorsData (Payload C)) :=
  match fuel with
  | O => λ _, Waiting
  | S fuel' =>
      let* cur := GetCurrentMem in
      if (insert_buffer_size_ C <? cur)%Z
      then InsertVectors fuel' table_id vectors
      else InsertVectorsNoLock table_id vectors
  end.

(** *** DeleteVector *)
Definition DeleteVector (table_id : string) (vector_id : IDNumber) : M Status :=
  let* mem := GetMemByTable table_id in
  call_on mem (CallDelete mem vector_id) (λ e t b, MemTable_Delete C e t b vector_id).

(** *** DeleteVectors *)
Fixpoint delete_loop (mem : ptr) (vector_ids : IDNumbers) : M Status :=
  match vector_ids with
  | [] => ret Status_OK
  | id :: rest =>
      let* status := call_on mem (CallDelete mem id) (λ e t b, MemTable_Delete C e t b id) in
      if ok status then delete_loop mem rest else ret status
  end.

Definition DeleteVectors (table_id : string) (vector_ids : IDNumbers) : M Status :=
  let* mem := GetMemByTable table_id in
  delete_loop mem vector_ids.

(** *** ToImmutable(table_id)

    The statements are those of the source, in its order: the node is
    erased, then [memIt->second] is read through the same iterator. *)
Definition err_not_found (table_id : string) : string :=
  "Could not find table = " +:+ table_id +:+ " to flush".

Definition ToImmutable_table (table_id : string) : M Status :=
  let* s := get in
  let memIt := map_find (mem_id_map_ s) table_id in
  match memIt with
  | It_end => ret (MkStatus DB_NOT_FOUND (err_not_found table_id))
  | It_at _ =>
      set_mem_id_map (map_erase_at (mem_id_map_ s) memIt);;
      let* s1 := get in
      match iter_second (mem_id_map_ s1) memIt with
      | Some p => push_back p;; ret Status_OK
      | None => undefined
      end
  end.

(** *** ToImmutable()

    The directory is walked in the order of its container,
    [MemIdMap_walk]. *)
Fixpoint partition_loop (kvs : list (string * ptr)) (temp_map : gmap string ptr)
  : M (gmap string ptr) :=
  match kvs with
  | [] => ret temp_map
  | kv :: rest =>
      let* mt := deref kv.2 in
      if MemTable_Empty C (mem_body mt)
      then partition_loop rest (map_insert_kv kv temp_map)
      else push_back kv.2;; partition_loop rest temp_map
  end.

Definition ToImmutable_all : M Status :=
  let* s := get in
  let* temp_map := partition_loop (MemIdMap_walk C (mem_id_map_ s)) ∅ in
  set_mem_id_map temp_map;;
  ret Status_OK.

(** *** Flush(table_id, wal_lsn) *)
Fixpoint serialize_loop (l : list ptr) (wal_lsn : Z) : M unit :=
  match l with
  | [] => ret tt
  | mem :: rest =>
      call_on mem (CallSerialize mem wal_lsn) (λ e t b, MemTable_Serialize C e t b wal_lsn);;
      serialize_loop rest wal_lsn
  end.

Definition Flush_table (table_id : string) (wal_lsn : Z) : M Status :=
  let* status := ToImmutable_table table_id in
  if negb (ok status) then ret (MkStatus DB_ERROR (message status))
  else
    let* s := get in
    serialize_loop (immu_mem_list_ s) wal_lsn;;
    set_immu_mem_list [];;
    ret Status_OK.

(** *** Flush(table_ids, wal_lsn)

    [table_ids] is the caller's set; the second component of the result
    is its content on return. *)
Fixpoint serialize_collect_loop (l : list ptr) (wal_lsn : Z) (table_ids : gset string)
  : M (gset string) :=
  match l with
  | [] => ret table_ids
  | mem :: rest =>
      call_on mem (CallSerialize mem wal_lsn) (λ e t b, MemTable_Serialize C e t b wal_lsn);;
      let* mt := deref mem in
      serialize_collect_loop rest wal_lsn ({[table_id_ mt]} ∪ table_ids)
  end.

Definition Flush_all (table_ids : gset string) (wal_lsn : Z) : M (Status * gset string) :=
  ToImmutable_all;;
  let table_ids := (∅ : gset string) in
  let* s := get in
  let* table_ids := serialize_collect_loop (immu_mem_list_ s) wal_lsn table_ids in
  set_immu_mem_list [];;
  ret (Status_OK, table_ids).

(** *** EraseMemVector *)
Fixpoint erase_loop (l : list ptr) (table_id : string) (temp_list : list ptr)
  : M (list ptr) :=
  match l with
  | [] => ret temp_list
  | mem :: rest =>
      let* mt := deref mem in
      if decide (table_id_ mt ≠ table_id)
      then erase_loop rest table_id (temp_list ++ [mem])
      else erase_loop rest table_id temp_list
  end.

Definition EraseMemVector (table_id : string) : M Status :=
  let* s := get in
  set_mem_id_map (delete table_id (mem_id_map_ s));;
  let* temp_list := erase_loop (immu_mem_list_ s) table_id [] in
  set_immu_mem_list temp_list;;
  ret Status_OK.

End Manager.

(** ** Vocabulary of the properties *)
Section Vocabulary.
Context {C : Collab}.

(** What an operation returned, and the state it left. *)
Definition result_of {A} (o : outcome (A * State C)) : option A :=
  match o with
  | Defined (a, _) => Some a
  | _ => None
  end.

Definition state_of {A} (o : outcome (A * State C)) : option (State C) :=
  match o with
  | Defined (_, s) => Some s
  | _ => None
  end.

(** Every address held by the directory, respectively by the queue, is
    the address of an object. *)
Definition dir_alloc (s : State C) : Prop :=
  map_Forall (λ _ p, is_Some (heap s !! p)) (mem_id_map_ s).

Definition queue_alloc (s : State C) : Prop :=
  Forall (λ p, is_Some (heap s !! p)) (immu_mem_list_ s).

(** [GetTableId] of the object at [p]. *)
Definition tid_at (s : State C) (p : ptr) : option string :=
  table_id_ <$> heap s !! p.

(** Every buffer of the directory reports the table id it is filed under. *)
Definition keys_ok (s : State C) : Prop :=
  map_Forall (λ k p, tid_at s p = Some k) (mem_id_map_ s).

(** No object is both a value of the directory and an element of the
    queue. *)
Definition xor_inv (s : State C) : Prop :=
  map_Forall (λ _ p, p ∉ immu_mem_list_ s) (mem_id_map_ s).

(** [Empty()] of the object at [p]. *)
Definition empty_at (s : State C) (p : ptr) : bool :=
  match heap s !! p with
  | Some mt => MemTable_Empty C (mem_body mt)
  | None => false
  end.

(** The buffers [ToImmutable()] promotes: the non-empty ones, in the
    order the directory is walked. *)
Definition promoted (s : State C) : list ptr :=
  (filter (λ kv, empty_at s kv.2 = false) (MemIdMap_walk C (mem_id_map_ s))).*2.

(** The buffer an insert or a delete on [table_id] works on: the one the
    directory has, or a new one. *)
Definition buffer_of (s : State C) (table_id : string) : option (ptr * MemTable C) :=
  match mem_id_map_ s !! table_id with
  | Some p => (λ mt, (p, mt)) <$> heap s !! p
  | None => Some (fresh (dom (heap s)), MkMemTable table_id (MemTable_init C table_id))
  end.

(** [Delete] applied to each id of a list in turn, whatever it returns:
    the statuses, and the environment and buffer at the end. *)
Fixpoint apply_deletes (e : Env C) (t : string) (b : Body C) (ids : IDNumbers)
  : list Status * Env C * Body C :=
  match ids with
  | [] => ([], e, b)
  | id :: rest =>
      let '(st, e', b') := MemTable_Delete C e t b id in
      let '(sts, e'', b'') := apply_deletes e' t b' rest in
      (st :: sts, e'', b'')
  end.

(** The footprint [GetCurrentMem] reports when every address is valid. *)
Definition mem_at (s : State C) (p : ptr) : Z :=
  match heap s !! p with
  | Some mt => MemTable_GetCurrentMem C (mem_body mt)
  | None => 0%Z
  end.

Definition sum_wrap (s : State C) (l : list ptr) (acc : Z) : Z :=
  foldl (λ a p, wrap64 (a + mem_at s p)) acc l.

Definition current_mem (s : State C) : Z :=
  wrap64 (sum_wrap s (MemIdMap_walk C (mem_id_map_ s)).*2 0
          + sum_wrap s (immu_mem_list_ s) 0).

(** The invariant of the two collections. *)
Definition Inv (s : State C) : Prop :=
  dir_alloc s ∧ queue_alloc s ∧ keys_ok s ∧ xor_inv s.

(** The operations of the manager, and the states a single caller can
    bring it to from the state it is constructed in. *)
Inductive Op : Type :=
| OpInsertVectors (fuel : nat) (table_id : string) (vectors : VectorsData (Payload C))
| OpDeleteVector (table_id : string) (vector_id : IDNumber)
| OpDeleteVectors (table_id : string) (vector_ids : IDNumbers)
| OpFlush (table_id : string) (wal_lsn : Z)
| OpFlushAll (table_ids : gset string) (wal_lsn : Z)
| OpEraseMemVector (table_id : string).

Definition exec (o : Op) (s : State C) : option (State C) :=
  match o with
  | OpInsertVectors fuel t v => state_of (InsertVectors fuel t v s)
  | OpDeleteVector t id => state_of (DeleteVector t id s)
  | OpDeleteVectors t ids => state_of (DeleteVectors t ids s)
  | OpFlush t lsn => state_of (Flush_table t lsn s)
  | OpFlushAll ids lsn => state_of (Flush_all ids lsn s)
  | OpEraseMemVector t => state_of (EraseMemVector t s)
  end.

Inductive reachable : State C → Prop :=
| reachable_init e : reachable (MkState ∅ [] ∅ e [])
| reachable_step s o s' : reachable s → exec o s = Some s' → reachable s'.

(** The buffers the sweep of [Flush(table_ids, wal_lsn)] goes through:
    those already waiting, then the promoted ones. *)
Definition swept (s : State C) : list ptr := immu_mem_list_ s ++ promoted s.

(** [Serialize(wal_lsn)] applied to each buffer of a list in turn,
    whatever it returns: the environment and the objects at the end. *)
Fixpoint serialize_each (wal_lsn : Z) (l : list ptr) (e : Env C)
    (h : gmap ptr (MemTable C)) : Env C * gmap ptr (MemTable C) :=
  match l with
  | [] => (e, h)
  | p :: rest =>
      match h !! p with
      | Some mt =>
          let '(_, e', b') :=
            MemTable_Serialize C e (table_id_ mt) (mem_body mt) wal_lsn in
          serialize_each wal_lsn rest e' (<[p := MkMemTable (table_id_ mt) b']> h)
      | None => serialize_each wal_lsn rest e h
      end
  end.

(** Modelled from the spec: the contract of [MemTable.Add] and
    [VectorSource] (both absent) on a batch that comes without ids: when
    [Add] succeeds, the source reports one id per vector. *)
Definition ids_contract : Prop :=
  ∀ e t b (v : VectorsData (Payload C)) st e' b' src',
    MemTable_Add C e t b (VectorSource_init C v) = (st, e', b', src') →
    ok st = true → id_array_ v = [] →
    length (GetVectorIds C src') = vector_count_ v.

End Vocabulary.
Arguments ids_contract : clear implicits.

Section Footprint.
Context {C : Collab}.

(** The footprints of a list of buffers, added up without wrapping. *)
Definition total (s : State C) (l : list ptr) : Z :=
  foldr (λ p a, (mem_at s p + a)%Z) 0%Z l.

(** The values of the directory, in the order it is walked. *)
Definition dir_values (s : State C) : list ptr :=
  (MemIdMap_walk C (mem_id_map_ s)).*2.

End Footprint.

(** ** The two mutexes

    What the sequential model leaves out: every operation takes
    [mutex_] and [serialization_mtx_] through [std::unique_lock], which
    acquires where it is declared and releases at the end of its block.
    The lock events of an operation, in program order, are read off the
    source for each way through it; what is done to the collections in
    between does not matter here, only that it takes no further lock
    (calls into a MemTable do not come back to the manager). *)
Inductive Mutex : Type :=
| mutex_
| serialization_mtx_.

Inductive LockEvent : Type :=
| Acq (m : Mutex)
| Rel (m : Mutex).

#[global] Instance Mutex_eq_dec : EqDecision Mutex.
Proof. solve_decision. Defined.

#[global] Instance LockEvent_eq_dec : EqDecision LockEvent.
Proof. solve_decision. Defined.

(** [{ std::unique_lock<std::mutex> lock(m); body }] *)
Definition locked (m : Mutex) (body : list LockEvent) : list LockEvent :=
  Acq m :: body ++ [Rel m].

(** The ways through the operations, as far as locks are concerned. *)
Inductive Run : Type :=
(** [InsertVectors]: the gate samples [GetCurrentMem] once and then once
    more per sleep; each entry says whether that sample ran its mutable
    half first *)
| RunInsertVectors (first : bool) (more : list bool)
| RunDeleteVector
| RunDeleteVectors
(** [Flush(table_id, wal_lsn)]: [found] says whether [ToImmutable]
    returned OK *)
| RunFlush (found : bool)
| RunFlushAll
| RunEraseMemVector
| RunGetCurrentMutableMem
| RunGetCurrentImmutableMem
(** [GetCurrentMem]: the two operands of [+] are calls, run one after
    the other in either order *)
| RunGetCurrentMem (mutable_first : bool).

(** line 172 *)
Definition locks_GetCurrentMutableMem : list LockEvent := locked mutex_ [].

(** line 183 *)
Definition locks_GetCurrentImmutableMem : list LockEvent := locked serialization_mtx_ [].

(** line 192 *)
Definition locks_GetCurrentMem (mutable_first : bool) : list LockEvent :=
  if mutable_first
  then locks_GetCurrentMutableMem ++ locks_GetCurrentImmutableMem
  else locks_GetCurrentImmutableMem ++ locks_GetCurrentMutableMem.

(** lines 118 and 133: both [ToImmutable] hold [mutex_] for their whole
    body *)
Definition locks_ToImmutable : list LockEvent := locked mutex_ [].

(** lines 42-49: the samples of the gate, then [InsertVectorsNoLock]
    under [mutex_] *)
Definition locks_InsertVectors (first : bool) (more : list bool) : list LockEvent :=
  concat (locks_GetCurrentMem <$> first :: more) ++ locked mutex_ [].

(** lines 91-100: [ToImmutable], then either the early return or the
    sweep under [serialization_mtx_] *)
Definition locks_Flush_table (found : bool) : list LockEvent :=
  locks_ToImmutable ++ (if found then locked serialization_mtx_ [] else []).

(** lines 105-113 *)
Definition locks_Flush_all : list LockEvent :=
  locks_ToImmutable ++ locked serialization_mtx_ [].

(** lines 150-164: two blocks, one after the other *)
Definition locks_EraseMemVector : list LockEvent :=
  locked mutex_ [] ++ locked serialization_mtx_ [].

Definition locks (r : Run) : list LockEvent :=
  match r with
  | RunInsertVectors first more => locks_InsertVectors first more
  | RunDeleteVector => []
  | RunDeleteVectors => []
  | RunFlush found => locks_Flush_table found
  | RunFlushAll => locks_Flush_all
  | RunEraseMemVector => locks_EraseMemVector
  | RunGetCurrentMutableMem => locks_GetCurrentMutableMem
  | RunGetCurrentImmutableMem => locks_GetCurrentImmutableMem
  | RunGetCurrentMem mutable_first => locks_GetCurrentMem mutable_first
  end.

(** Running a list of lock events from holding [h]: the mutex held at the
    end, or [None] if an acquire comes while a mutex is held or a release
    does not match what is held. *)
Fixpoint held_after (h : option Mutex) (l : list LockEvent) : option (option Mutex) :=
  match l with
  | [] => Some h
  | Acq m :: rest =>
      match h with
      | None => held_after (Some m) rest
      | Some _ => None
      end
  | Rel m :: rest =>
      match h with
      | Some m' => if decide (m = m') then held_after None rest else None
      | None => None
      end
  end.

(** A path that never acquires while it holds a mutex, releases only what
    it holds, and ends holding nothing. *)
Definition disciplined (l : list LockEvent) : Prop := held_after None l = Some None.

(** Threads calling the manager: what each holds, and the lock events it
    still has to go through.  [std::mutex::lock] goes ahead only when no
    thread holds the mutex (the caller included); [unlock] needs the
    mutex held by the caller. *)
Record Thread : Type := MkThread { held : list Mutex; todo : list LockEvent }.

Definition free (c : list Thread) (m : Mutex) : Prop :=
  Forall (λ th, m ∉ held th) c.

Inductive step : list Thread → list Thread → Prop :=
| step_acq c1 c2 hs m rest :
    free (c1 ++ MkThread hs (Acq m :: rest) :: c2) m →
    step (c1 ++ MkThread hs (Acq m :: rest) :: c2)
         (c1 ++ MkThread (m :: hs) rest :: c2)
| step_rel c1 c2 hs m rest :
    m ∈ hs →
    step (c1 ++ MkThread hs (Rel m :: rest) :: c2)
         (c1 ++ MkThread (filter (λ x, x ≠ m) hs) rest :: c2).

(** A caller that goes through a list of operations, holding nothing at
    the start. *)
Definition start (runs : list Run) : Thread :=
  MkThread [] (concat (locks <$> runs)).

Definition finished (c : list Thread) : Prop := Forall (λ th, todo th = []) c.

(** Holding at most one mutex, with a disciplined rest. *)
Definition good (th : Thread) : Prop :=
  ∃ h, held th = option_list h ∧ held_after h (todo th) = Some None.

(** ** A concrete set of collaborators

    A small MemTable used to run the manager on concrete inputs: a buffer
    is the list of the ids it holds and the list of its tombstones, ids
    are handed out from a counter, a negative id cannot be deleted, and
    a batch whose id array does not match its vectors is refused. *)
Module Demo.

Definition body : Type := list IDNumber * list IDNumber.
Definition source : Type := nat * IDNumbers * IDNumbers.

Definition next_ids (from : Z) (n : nat) : IDNumbers :=
  (λ i, (from + Z.of_nat i)%Z) <$> seq 0 n.

Definition add (e : Z) (t : string) (b : body) (src : source)
  : Status * Z * body * source :=
  let '(n, given, _) := src in
  match given with
  | [] =>
      let ids := next_ids e n in
      (Status_OK, (e + Z.of_nat n)%Z, (b.1 ++ ids, b.2), (n, given, ids))
  | _ :: _ =>
      if decide (length given = n)
      then (Status_OK, e, (b.1 ++ given, b.2), (n, given, given))
      else (MkStatus DB_ERROR "id array mismatch", e, b, src)
  end.

Definition del (e : Z) (t : string) (b : body) (id : IDNumber) : Status * Z * body :=
  if (id <? 0)%Z
  then (MkStatus (OtherError 7) "bad id", e, b)
  else (Status_OK, e, (b.1, b.2 ++ [id])).

Definition serialize (e : Z) (t : string) (b : body) (wal_lsn : Z) : Status * Z * body :=
  if (wal_lsn =? 0)%Z
  then (MkStatus DB_ERROR "no lsn", e, b)
  else (Status_OK, e, b).

(** The walk of a [std::map]: ascending keys. *)
Definition key_le (a b : string * ptr) : Prop := String.leb a.1 b.1 = true.

#[global] Instance key_le_dec (a b : string * ptr) : Decision (key_le a b) :=
  decide (String.leb a.1 b.1 = true).

Definition ascending (m : gmap string ptr) : list (string * ptr) :=
  merge_sort key_le (map_to_list m).

Lemma ascending_perm (m : gmap string ptr) : ascending m ≡ₚ map_to_list m.
Proof. apply merge_sort_Permutation. Qed.

Definition collab : Collab := {|
  Env := Z;
  Body := body;
  Payload := list Z;
  VectorSource := source;
  MemTable_init := λ _, ([], []);
  VectorSource_init := λ v, (vector_count_ v, id_array_ v, []);
  GetVectorIds := λ src, src.2;
  MemTable_Add := add;
  MemTable_Delete := del;
  MemTable_Serialize := serialize;
  MemTable_Empty := λ b, bool_decide (b = ([], []));
  MemTable_GetCurrentMem := λ b, (8 * Z.of_nat (length b.1 + length b.2))%Z;
  insert_buffer_size_ := 1024;
  MemIdMap_walk := ascending;
  MemIdMap_walk_perm := ascending_perm
|}.

Definition st : Type := State collab.

(** The manager right after construction. *)
Definition init : st := @MkState collab ∅ [] ∅ 100%Z [].

Definition batch (vecs : list Z) (ids : IDNumbers) : VectorsData (Payload collab) :=
  MkVectorsData (length vecs) vecs ids.

(** The state an operation leaves, when it returns. *)
Definition after {A} (o : outcome (A * st)) : st :=
  match o with
  | Defined (_, s) => s
  | _ => init
  end.

(** One buffer for table "t" holding three vectors. *)
Definition s_t : st :=
  after (InsertVectors (C := collab) 1 "t" (batch [1; 2; 3]%Z []) init).

(** An untouched buffer "a" next to a buffer "b" holding one vector. *)
Definition s_ab : st :=
  @MkState collab {[ "a" := 1%positive; "b" := 2%positive ]} []
          {[ 1%positive := @MkMemTable collab "a" ([], []);
             2%positive := @MkMemTable collab "b" ([7%Z], []) ]}
          100%Z [].

(** As [s_ab], with a buffer of table "c" already waiting in the queue. *)
Definition s_abq : st :=
  @MkState collab {[ "a" := 1%positive; "b" := 2%positive ]} [3%positive]
          {[ 1%positive := @MkMemTable collab "a" ([], []);
             2%positive := @MkMemTable collab "b" ([7%Z], []);
             3%positive := @MkMemTable collab "c" ([9%Z], []) ]}
          100%Z [].

(** Two written buffers, "b" and "c", in the directory. *)
Definition s_bc : st :=
  @MkState collab {[ "b" := 1%positive; "c" := 2%positive ]} []
          {[ 1%positive := @MkMemTable collab "b" ([7%Z], []);
             2%positive := @MkMemTable collab "c" ([9%Z], []) ]}
          100%Z [].

(** Only an untouched buffer "a". *)
Definition s_a : st :=
  @MkState collab {[ "a" := 1%positive ]} []
          {[ 1%positive := @MkMemTable collab "a" ([], []) ]}
          100%Z [].

(** A buffer "big" of 130 ids: 1040 bytes, above the ceiling of 1024. *)
Definition s_big : st :=
  @MkState collab {[ "big" := 1%positive ]} []
          {[ 1%positive := @MkMemTable collab "big" (next_ids 0 130, []) ]}
          130%Z [].

End Demo.

(** ** Flush by name *)
Section FlushByName.
Context {C : Collab}.
Implicit Types (s : State C) (t : string) (p : ptr).

Lemma map_find_absent (m : gmap string ptr) t : m !! t = None → map_find m t = It_end.
Proof. intros H. unfold map_find. by rewrite H. Qed.

Lemma map_find_present (m : gmap string ptr) t p : m !! t = Some p → map_find m t = It_at t.
Proof. intros H. unfold map_find. by rewrite H. Qed.

(** Reading through an iterator whose node was erased finds nothing. *)
Lemma iter_second_erased (m : gmap string ptr) t :
  iter_second (map_erase_at m (It_at t)) (It_at t) = None.
Proof. simpl. apply lookup_delete_eq. Qed.

Lemma ToImmutable_table_absent s t :
  mem_id_map_ s !! t = None →
  ToImmutable_table t s = Defined (MkStatus DB_NOT_FOUND (err_not_found t), s).
Proof.
  intros H. unfold ToImmutable_table, bind, get.
  by rewrite (map_find_absent _ _ H).
Qed.

Lemma ToImmutable_table_present s t p :
  mem_id_map_ s !! t = Some p → ToImmutable_table t s = Undefined.
Proof.
  intros H. unfold ToImmutable_table, bind, get.
  rewrite (map_find_present _ _ _ H). cbn.
  by rewrite lookup_delete_eq.
Qed.

Lemma Flush_table_present s t p wal_lsn :
  mem_id_map_ s !! t = Some p → Flush_table t wal_lsn s = Undefined.
Proof.
  intros H. unfold Flush_table, bind.
  by rewrite (ToImmutable_table_present _ _ _ H).
Qed.

Lemma Flush_table_absent s t wal_lsn :
  mem_id_map_ s !! t = None →
  Flush_table t wal_lsn s = Defined (MkStatus DB_ERROR (err_not_found t), s).
Proof.
  intros H. unfold Flush_table, bind.
  by rewrite (ToImmutable_table_absent _ _ H).
Qed.

(** C1 (as amended): when [table_id] has no entry in the directory,
    [Flush(table_id, wal_lsn)] returns a status whose code is [DB_ERROR],
    not [DB_NOT_FOUND]; it carries the message of the [DB_NOT_FOUND]
    status that [ToImmutable(table_id)] returned to it. *)
Theorem Flush_table_absent_status s t wal_lsn :
  mem_id_map_ s !! t = None →
  result_of (ToImmutable_table t s) = Some (MkStatus DB_NOT_FOUND (err_not_found t)) ∧
  result_of (Flush_table t wal_lsn s) = Some (MkStatus DB_ERROR (err_not_found t)).
Proof.
  intros H. by rewrite (Flush_table_absent _ _ _ H), (ToImmutable_table_absent _ _ H).
Qed.

(** C8: when [table_id] has no entry in the directory,
    [Flush(table_id, wal_lsn)] returns with the whole state as it was: the
    directory, the queue, every buffer, and the log of calls, so no
    [Serialize] was made, also not on buffers waiting in the queue. *)
Theorem Flush_table_absent_state s t wal_lsn :
  mem_id_map_ s !! t = None →
  state_of (Flush_table t wal_lsn s) = Some s ∧
  ∀ s', state_of (Flush_table t wal_lsn s) = Some s' →
    mem_id_map_ s' = mem_id_map_ s ∧ immu_mem_list_ s' = immu_mem_list_ s ∧
    heap s' = heap s ∧ calls s' = calls s.
Proof.
  intros H. rewrite (Flush_table_absent _ _ _ H). cbn.
  split; [done | by intros s' [= <-]].
Qed.

(** The sweep of [Flush(table_id, wal_lsn)]: one [Serialize(wal_lsn)] per
    buffer of the list, in order, whatever each returns. *)
Lemma serialize_loop_calls wal_lsn (l : list ptr) : ∀ s,
  Forall (λ p, is_Some (heap s !! p)) l →
  ∃ s', serialize_loop l wal_lsn s = Defined (tt, s') ∧
    mem_id_map_ s' = mem_id_map_ s ∧ immu_mem_list_ s' = immu_mem_list_ s ∧
    calls s' = calls s ++ ((λ p, CallSerialize p wal_lsn) <$> l).
Proof.
  induction l as [|p l IH]; intros s Hall.
  - exists s. cbn. by rewrite app_nil_r.
  - apply Forall_cons in Hall as [[mt Hp] Hall].
    cbn [serialize_loop]. unfold bind, call_on. rewrite Hp.
    destruct (MemTable_Serialize C _ _ _ _) as [[st e'] b'].
    set (s1 := MkState _ _ _ _ _).
    destruct (IH s1) as (s' & Hrun & Hdir & Hq & Hc).
    { eapply Forall_impl; [exact Hall|]. intros q [mq Hq]. cbn.
      destruct (decide (p = q)) as [<-|Hne].
      - rewrite lookup_insert_eq. eauto.
      - rewrite lookup_insert_ne; eauto. }
    exists s'. rewrite Hrun. repeat split; try done.
    rewrite Hc. cbn. by rewrite <- app_assoc.
Qed.

(** C2 (what the code does instead): whenever [table_id] has an entry in
    the directory, [Flush(table_id, wal_lsn)] erases the node and then
    reads the erased node; no buffer is promoted or serialized by a call
    with defined behaviour. *)
Theorem Flush_table_found_undefined s t p wal_lsn :
  mem_id_map_ s !! t = Some p →
  Flush_table t wal_lsn s = Undefined ∧
  result_of (Flush_table t wal_lsn s) = None ∧ state_of (Flush_table t wal_lsn s) = None.
Proof.
  intros H. by rewrite (Flush_table_present s t p wal_lsn H).
Qed.

(** C7 (what the code does instead): in the promotion by name, once the
    entry of [table_id] is erased its iterator gives no buffer to append:
    [ToImmutable(table_id)] on a table that has an entry does not reach a
    state in which the buffer is in the queue. *)
Theorem ToImmutable_table_found_undefined s t p :
  mem_id_map_ s !! t = Some p →
  let memIt := map_find (mem_id_map_ s) t in
  iter_second (mem_id_map_ s) memIt = Some p ∧
  iter_second (map_erase_at (mem_id_map_ s) memIt) memIt = None ∧
  ToImmutable_table t s = Undefined.
Proof.
  intros H memIt. subst memIt. rewrite (map_find_present _ _ _ H).
  split; [exact H|]. split; [apply iter_second_erased|].
  exact (ToImmutable_table_present s t p H).
Qed.

End FlushByName.

(** ** EraseMemVector *)
Section Erase.
Context {C : Collab}.
Implicit Types (s : State C) (t : string) (p : ptr).

Lemma erase_loop_filter t (l acc : list ptr) s :
  Forall (λ p, is_Some (heap s !! p)) l →
  erase_loop l t acc s = Defined (acc ++ filter (λ p, tid_at s p ≠ Some t) l, s).
Proof.
  intros Hl. revert acc. induction Hl as [|p l [mt Hp] _ IH]; intros acc.
  - cbn. by rewrite app_nil_r.
  - assert (Htid : tid_at s p = Some (table_id_ mt)) by (unfold tid_at; by rewrite Hp).
    rewrite filter_cons. cbn [erase_loop]. unfold bind, deref. rewrite Hp.
    destruct (decide (table_id_ mt ≠ t)) as [Hne|Heq].
    + rewrite IH, decide_True, <- app_assoc; [done|].
      rewrite Htid. congruence.
    + rewrite IH, decide_False; [done|].
      rewrite Htid. intros Hn. apply Heq. congruence.
Qed.

Lemma EraseMemVector_eq s t :
  queue_alloc s →
  EraseMemVector t s =
    Defined (Status_OK,
             MkState (delete t (mem_id_map_ s))
               (filter (λ p, tid_at s p ≠ Some t) (immu_mem_list_ s))
               (heap s) (env s) (calls s)).
Proof.
  intros Hq. unfold EraseMemVector, bind, get, set_mem_id_map, set_immu_mem_list, ret.
  cbn. by rewrite (erase_loop_filter t (immu_mem_list_ s) []
    (MkState (delete t (mem_id_map_ s)) (immu_mem_list_ s) (heap s) (env s) (calls s)) Hq).
Qed.

(** C6: [EraseMemVector(t)] returns OK; afterwards no buffer of the
    directory and no buffer of the queue reports table id [t]; directory
    entries of other tables are as before, and the queue is what it was
    without the buffers of [t], in the same order.  (The directory files
    every buffer under its own table id, and the queue holds addresses of
    objects.) *)
Theorem EraseMemVector_spec s t :
  queue_alloc s → keys_ok s →
  ∃ s', EraseMemVector t s = Defined (Status_OK, s') ∧
    (∀ k p, mem_id_map_ s' !! k = Some p → tid_at s' p ≠ Some t) ∧
    (∀ p, p ∈ immu_mem_list_ s' → tid_at s' p ≠ Some t) ∧
    (∀ k, k ≠ t → mem_id_map_ s' !! k = mem_id_map_ s !! k) ∧
    mem_id_map_ s' = delete t (mem_id_map_ s) ∧
    immu_mem_list_ s' = filter (λ p, tid_at s p ≠ Some t) (immu_mem_list_ s) ∧
    immu_mem_list_ s' `sublist_of` immu_mem_list_ s ∧
    heap s' = heap s ∧ calls s' = calls s.
Proof.
  intros Hq Hk. rewrite (EraseMemVector_eq s t Hq).
  eexists. split; [reflexivity|]. cbn.
  repeat split.
  - intros k p Hkp. apply lookup_delete_Some in Hkp as [Hne Hkp].
    specialize (Hk k p Hkp). cbn in Hk. unfold tid_at in *. cbn.
    rewrite Hk. congruence.
  - intros p Hp. apply list_elem_of_filter in Hp as [Hp _]. exact Hp.
  - intros k Hne. by apply lookup_delete_ne.
  - apply sublist_filter.
Qed.

End Erase.

(** ** Resolving a buffer, and calls into it *)
Section Buffers.
Context {C : Collab}.
Implicit Types (s : State C) (t : string) (p : ptr).

Lemma call_on_eq {R} s p (c : Call) (f : Env C → string → Body C → R * Env C * Body C)
    mt r e' b' :
  heap s !! p = Some mt →
  f (env s) (table_id_ mt) (mem_body mt) = (r, e', b') →
  call_on p c f s =
    Defined (r, MkState (mem_id_map_ s) (immu_mem_list_ s)
                  (<[p := MkMemTable (table_id_ mt) b']> (heap s)) e' (calls s ++ [c])).
Proof. intros Hp Hf. unfold call_on. by rewrite Hp, Hf. Qed.

(** A walk of the directory meets exactly its entries. *)
Lemma elem_of_walk (m : gmap string ptr) k p :
  (k, p) ∈ MemIdMap_walk C m ↔ m !! k = Some p.
Proof. by rewrite (MemIdMap_walk_perm C m), elem_of_map_to_list. Qed.

Lemma fresh_not_alloc s : heap s !! fresh (dom (heap s)) = None.
Proof. apply not_elem_of_dom, is_fresh. Qed.

(** [GetMemByTable] returns the buffer of the directory, or installs a new
    one; either way the directory then maps [t] to the returned address. *)
Lemma GetMemByTable_eq s t :
  dir_alloc s →
  ∃ p mt, buffer_of s t = Some (p, mt) ∧
    GetMemByTable t s =
      Defined (p, MkState (<[t := p]> (mem_id_map_ s)) (immu_mem_list_ s)
                    (<[p := mt]> (heap s)) (env s) (calls s)).
Proof.
  intros Hd. unfold GetMemByTable, buffer_of, bind, get, map_find.
  destruct (mem_id_map_ s !! t) as [p|] eqn:Ht.
  - destruct (Hd t p Ht) as [mt Hp]. exists p, mt. cbn. rewrite Ht, Hp. cbn.
    split; [done|]. unfold ret. rewrite !insert_id by done. by destruct s.
  - eexists _, _. split; [reflexivity|]. done.
Qed.

End Buffers.

(** ** DeleteVector and DeleteVectors *)
Section Delete.
Context {C : Collab}.
Implicit Types (s : State C) (t : string) (p : ptr) (ids : IDNumbers).

(** The loop of [DeleteVectors] on the buffer at [p], against [Delete]
    applied id by id. *)
Lemma delete_loop_spec p t ids : ∀ s b,
  heap s !! p = Some (MkMemTable t b) →
  ∃ st s', delete_loop p ids s = Defined (st, s') ∧
    mem_id_map_ s' = mem_id_map_ s ∧ immu_mem_list_ s' = immu_mem_list_ s ∧
    (∀ q, q ≠ p → heap s' !! q = heap s !! q) ∧
    (∀ sts e' b',
       apply_deletes (env s) t b ids = (sts, e', b') →
       Forall (λ x, ok x = true) sts →
       st = Status_OK ∧ calls s' = calls s ++ (CallDelete p <$> ids) ∧
       env s' = e' ∧ heap s' !! p = Some (MkMemTable t b')) ∧
    (∀ pre id post sts e1 b1 stf e' b',
       ids = pre ++ id :: post →
       apply_deletes (env s) t b pre = (sts, e1, b1) →
       Forall (λ x, ok x = true) sts →
       MemTable_Delete C e1 t b1 id = (stf, e', b') →
       ok stf = false →
       st = stf ∧ calls s' = calls s ++ (CallDelete p <$> (pre ++ [id])) ∧
       env s' = e' ∧ heap s' !! p = Some (MkMemTable t b')).
Proof.
  induction ids as [|id rest IH]; intros s b Hp.
  - exists Status_OK, s. cbn. repeat split; try done.
    + by rewrite app_nil_r.
    + by injection H as <- <- <-.
    + by injection H as <- <- <-.
    + by destruct pre.
    + by destruct pre.
    + by destruct pre.
    + by destruct pre.
  - destruct (MemTable_Delete C (env s) t b id) as [[st1 e1] b1] eqn:Hd.
    cbn [delete_loop]. unfold bind.
    rewrite (call_on_eq s p _ _ _ st1 e1 b1 Hp Hd). cbn [table_id_].
    set (s1 := MkState _ _ _ _ _).
    assert (Hp1 : heap s1 !! p = Some (MkMemTable t b1)) by apply lookup_insert_eq.
    destruct (ok st1) eqn:Hok1.
    + destruct (IH s1 b1 Hp1) as (st & s' & Hrun & Hdir & Hq & Hother & Hall & Hfail).
      exists st, s'. split; [done|]. split; [done|]. split; [done|].
      split; [|split].
      * intros q Hne. rewrite (Hother q Hne). by apply lookup_insert_ne.
      * intros sts e' b'. cbn [apply_deletes]. rewrite Hd.
        destruct (apply_deletes e1 t b1 rest) as [[sts' e''] b''] eqn:Hrest.
        intros [= <- <- <-] Hf. apply Forall_cons in Hf as [_ Hf].
        destruct (Hall sts' e'' b'' Hrest Hf) as (-> & Hc & He & Hh).
        repeat split; try done. rewrite Hc. cbn. by rewrite <- app_assoc.
      * intros [|id' pre] id2 post sts ea ba stf e' b' Hsplit; cbn in Hsplit.
        -- injection Hsplit as <- <-. cbn. intros [= <- <- <-] _ Hd2 Hnok.
           rewrite Hd in Hd2. injection Hd2 as <- <- <-. congruence.
        -- injection Hsplit as <- ->. cbn [apply_deletes]. rewrite Hd.
           destruct (apply_deletes e1 t b1 pre) as [[sts' e''] b''] eqn:Hpre.
           intros [= <- <- <-] Hf Hd2 Hnok. apply Forall_cons in Hf as [_ Hf].
           destruct (Hfail pre id2 post sts' e'' b'' stf e' b' eq_refl Hpre Hf Hd2 Hnok)
             as (-> & Hc & He & Hh).
           repeat split; try done. rewrite Hc. cbn. by rewrite <- app_assoc.
    + exists st1, s1. split; [done|]. split; [done|]. split; [done|].
      split; [|split].
      * intros q Hne. by apply lookup_insert_ne.
      * intros sts e' b'. cbn [apply_deletes]. rewrite Hd.
        destruct (apply_deletes e1 t b1 rest) as [[sts' e''] b''].
        intros [= <- <- <-] Hf. apply Forall_cons in Hf as [Hf _]. congruence.
      * intros [|id' pre] id2 post sts ea ba stf e' b' Hsplit; cbn in Hsplit.
        -- injection Hsplit as <- <-. cbn. intros [= <- <- <-] _ Hd2 Hnok.
           rewrite Hd in Hd2. by injection Hd2 as <- <- <-.
        -- injection Hsplit as <- ->. cbn [apply_deletes]. rewrite Hd.
           destruct (apply_deletes e1 t b1 pre) as [[sts' e''] b''].
           intros [= <- <- <-] Hf. apply Forall_cons in Hf as [Hf _]. congruence.
Qed.

(** Either every [Delete] of the list succeeds, or there is a first one
    that fails. *)
Lemma apply_deletes_cases t ids : ∀ (e : Env C) (b : Body C),
  (∃ sts e' b', apply_deletes e t b ids = (sts, e', b') ∧ Forall (λ x, ok x = true) sts) ∨
  (∃ pre id post sts e1 b1 stf e' b',
     ids = pre ++ id :: post ∧
     apply_deletes e t b pre = (sts, e1, b1) ∧ Forall (λ x, ok x = true) sts ∧
     MemTable_Delete C e1 t b1 id = (stf, e', b') ∧ ok stf = false).
Proof.
  induction ids as [|id rest IH]; intros e b.
  - left. by exists [], e, b.
  - destruct (MemTable_Delete C e t b id) as [[st1 e1] b1] eqn:Hd.
    destruct (ok st1) eqn:Hok.
    + destruct (IH e1 b1) as [(sts & e' & b' & Hr & Hf)|
        (pre & id2 & post & sts & ea & ba & stf & e' & b' & -> & Hpre & Hf & Hd2 & Hnok)].
      * left. exists (st1 :: sts), e', b'. cbn. rewrite Hd, Hr. by split; [|constructor].
      * right. exists (id :: pre), id2, post, (st1 :: sts), ea, ba, stf, e', b'.
        cbn. rewrite Hd, Hpre. by repeat split; [constructor|..].
    + right. exists [], id, rest, [], e, b, st1, e1, b1. by repeat split.
Qed.

Lemma DeleteVectors_queue s t ids :
  dir_alloc s →
  ∃ st s', DeleteVectors t ids s = Defined (st, s') ∧ immu_mem_list_ s' = immu_mem_list_ s.
Proof.
  intros Hd. destruct (GetMemByTable_eq s t Hd) as (p & mt & Hbuf & Hget).
  unfold DeleteVectors, bind. rewrite Hget.
  set (s0 := MkState _ _ _ _ _).
  assert (Hp : heap s0 !! p = Some (MkMemTable (table_id_ mt) (mem_body mt))).
  { cbn. rewrite lookup_insert_eq. by destruct mt. }
  destruct (delete_loop_spec p (table_id_ mt) ids s0 (mem_body mt) Hp)
    as (st & s' & Hrun & _ & Hq & _).
  by exists st, s'.
Qed.

(** C5: [DeleteVectors(table_id, ids)] resolves the buffer of the table
    and applies [Delete] to the ids in order.  If every [Delete] succeeds
    it returns OK, having called [Delete] on every id.  Otherwise it
    returns the status of the first [Delete] that fails, having called
    [Delete] on the ids up to and including that one and on no later id;
    the buffer and the environment are those the calls made so far left,
    nothing is rolled back. *)
Theorem DeleteVectors_spec s t ids :
  dir_alloc s →
  ∃ p mt st s', buffer_of s t = Some (p, mt) ∧
    DeleteVectors t ids s = Defined (st, s') ∧
    ((∃ sts e' b',
        apply_deletes (env s) (table_id_ mt) (mem_body mt) ids = (sts, e', b') ∧
        Forall (λ x, ok x = true) sts ∧
        st = Status_OK ∧
        calls s' = calls s ++ (CallDelete p <$> ids) ∧
        env s' = e' ∧ heap s' !! p = Some (MkMemTable (table_id_ mt) b')) ∨
     (∃ pre id post sts e1 b1 e' b',
        ids = pre ++ id :: post ∧
        apply_deletes (env s) (table_id_ mt) (mem_body mt) pre = (sts, e1, b1) ∧
        Forall (λ x, ok x = true) sts ∧
        MemTable_Delete C e1 (table_id_ mt) b1 id = (st, e', b') ∧
        ok st = false ∧
        calls s' = calls s ++ (CallDelete p <$> (pre ++ [id])) ∧
        env s' = e' ∧ heap s' !! p = Some (MkMemTable (table_id_ mt) b'))).
Proof.
  intros Hd. destruct (GetMemByTable_eq s t Hd) as (p & mt & Hbuf & Hget).
  unfold DeleteVectors, bind. rewrite Hget.
  set (s0 := MkState _ _ _ _ _).
  assert (Hp : heap s0 !! p = Some (MkMemTable (table_id_ mt) (mem_body mt))).
  { cbn. rewrite lookup_insert_eq. by destruct mt. }
  destruct (delete_loop_spec p (table_id_ mt) ids s0 (mem_body mt) Hp)
    as (st & s' & Hrun & _ & _ & _ & Hall & Hfail).
  exists p, mt, st, s'. split; [done|]. split; [done|].
  destruct (apply_deletes_cases (table_id_ mt) ids (env s) (mem_body mt))
    as [(sts & e' & b' & Hr & Hf)|
        (pre & id & post & sts & e1 & b1 & stf & e' & b' & Hsplit & Hpre & Hf & Hd2 & Hnok)].
  - left. exists sts, e', b'.
    destruct (Hall sts e' b' Hr Hf) as (-> & Hc & He & Hh). by repeat split.
  - right. exists pre, id, post, sts, e1, b1, e', b'.
    destruct (Hfail pre id post sts e1 b1 stf e' b' Hsplit Hpre Hf Hd2 Hnok)
      as (-> & Hc & He & Hh). by repeat split.
Qed.

End Delete.

(** ** InsertVectors *)
Section Insert.
Context {C : Collab}.
Implicit Types (s : State C) (t : string) (p : ptr) (v : VectorsData (Payload C)).

Lemma sum_mem_eq s (l : list ptr) : ∀ acc,
  Forall (λ p, is_Some (heap s !! p)) l →
  sum_mem l acc s = Defined (sum_wrap s l acc, s).
Proof.
  induction l as [|p l IH]; intros acc Hl; [done|].
  apply Forall_cons in Hl as [[mt Hp] Hl].
  cbn [sum_mem]. unfold bind, deref. rewrite Hp, (IH _ Hl).
  unfold sum_wrap. cbn [foldl].
  assert (mem_at s p = MemTable_GetCurrentMem C (mem_body mt)) as ->; [|done].
  unfold mem_at. by rewrite Hp.
Qed.

Lemma dir_alloc_values s :
  dir_alloc s →
  Forall (λ p, is_Some (heap s !! p)) (MemIdMap_walk C (mem_id_map_ s)).*2.
Proof.
  intros Hd. apply Forall_fmap, Forall_forall. intros [k p] Hkp.
  apply elem_of_walk in Hkp. exact (Hd k p Hkp).
Qed.

(** With every address valid, the footprint is the wrapped sum over both
    collections, and sampling it changes nothing. *)
Lemma GetCurrentMem_eq s :
  dir_alloc s → queue_alloc s → GetCurrentMem s = Defined (current_mem s, s).
Proof.
  intros Hd Hq. unfold GetCurrentMem, GetCurrentMutableMem, GetCurrentImmutableMem, bind, get.
  rewrite (sum_mem_eq s _ _ (dir_alloc_values s Hd)).
  by rewrite (sum_mem_eq s _ _ Hq).
Qed.

(** While the footprint is above the ceiling and nobody else drains the
    queue, the gate of [InsertVectors] never opens. *)
Lemma InsertVectors_gate_closed s t v fuel :
  dir_alloc s → queue_alloc s → (insert_buffer_size_ C < current_mem s)%Z →
  InsertVectors fuel t v s = Waiting.
Proof.
  intros Hd Hq Hlt. induction fuel as [|fuel IH]; [done|].
  cbn. unfold bind. rewrite (GetCurrentMem_eq s Hd Hq).
  by apply Z.ltb_lt in Hlt as ->.
Qed.

Lemma InsertVectors_gate_open s t v fuel :
  dir_alloc s → queue_alloc s → (current_mem s ≤ insert_buffer_size_ C)%Z →
  InsertVectors (S fuel) t v s = InsertVectorsNoLock t v s.
Proof.
  intros Hd Hq Hle. cbn. unfold bind. rewrite (GetCurrentMem_eq s Hd Hq).
  by apply Z.ltb_ge in Hle as ->.
Qed.

(** C4: once past the gate, [InsertVectors(table_id, batch)] returns
    exactly the status of [MemTable.Add] on the buffer of the table.  If
    that status is OK and the batch came with an empty id array, the id
    array of the batch on return is what the VectorSource reports (one id
    per vector, by the contract of the source); if the caller supplied
    ids, or [Add] fails, the batch is returned unchanged. *)
Theorem InsertVectors_spec s t v fuel :
  dir_alloc s → queue_alloc s → (current_mem s ≤ insert_buffer_size_ C)%Z →
  ∃ p mt st e' b' src' v' s',
    buffer_of s t = Some (p, mt) ∧
    MemTable_Add C (env s) (table_id_ mt) (mem_body mt) (VectorSource_init C v)
      = (st, e', b', src') ∧
    InsertVectors (S fuel) t v s = Defined ((st, v'), s') ∧
    (ok st = true → id_array_ v = [] →
       id_array_ v' = GetVectorIds C src' ∧
       vector_count_ v' = vector_count_ v ∧ vectors_payload v' = vectors_payload v ∧
       (ids_contract C → length (id_array_ v') = vector_count_ v')) ∧
    (id_array_ v ≠ [] ∨ ok st = false → v' = v).
Proof.
  intros Hd Hq Hle. rewrite (InsertVectors_gate_open s t v fuel Hd Hq Hle).
  destruct (GetMemByTable_eq s t Hd) as (p & mt & Hbuf & Hget).
  destruct (MemTable_Add C (env s) (table_id_ mt) (mem_body mt) (VectorSource_init C v))
    as [[[st e'] b'] src'] eqn:Hadd.
  unfold InsertVectorsNoLock, bind. rewrite Hget.
  set (s0 := MkState _ _ _ _ _).
  assert (Hp : heap s0 !! p = Some mt) by apply lookup_insert_eq.
  rewrite (call_on_eq s0 p _ _ mt (st, src') e' b' Hp) by (cbn; by rewrite Hadd).
  cbn [fst snd].
  destruct (ok st) eqn:Hok; [destruct (id_array_ v) as [|i ids] eqn:Hids|].
  - eexists p, mt, st, e', b', src', _, _. repeat split; try done.
    + intros Hc. cbn. exact (Hc _ _ _ _ _ _ _ _ Hadd Hok Hids).
    + intros [?|?]; congruence.
  - eexists p, mt, st, e', b', src', _, _.
    split; [done|]. split; [done|]. split; [reflexivity|]. split; [|done].
    intros _ Hnil. congruence.
  - eexists p, mt, st, e', b', src', _, _.
    split; [done|]. split; [done|]. split; [reflexivity|]. split; [|done].
    intros Hok'. congruence.
Qed.

End Insert.

(** ** Flush of all tables *)
Section FlushAll.
Context {C : Collab}.
Implicit Types (s : State C) (t : string) (p : ptr).

(** Filling [temp_map] with [insert] is building the map of the list. *)
Lemma insert_kv_lookup (l : list (string * ptr)) : ∀ (tm : gmap string ptr) k,
  foldl (λ m kv, map_insert_kv kv m) tm l !! k =
    match tm !! k with
    | Some q => Some q
    | None => (list_to_map l : gmap string ptr) !! k
    end.
Proof.
  induction l as [|[k0 p0] l IH]; intros tm k; cbn [foldl].
  - cbn. by destruct (tm !! k).
  - rewrite IH. unfold map_insert_kv. cbn [fst snd].
    rewrite list_to_map_cons.
    destruct (tm !! k0) as [q0|] eqn:H0.
    + destruct (tm !! k) as [q|] eqn:Hk; [done|].
      rewrite lookup_insert_ne; [done|congruence].
    + destruct (decide (k0 = k)) as [->|Hne].
      * by rewrite H0, !lookup_insert_eq.
      * by rewrite !lookup_insert_ne.
Qed.

Lemma insert_kv_filter (P : string * ptr → Prop) `{!∀ kv, Decision (P kv)}
    (m : gmap string ptr) :
  foldl (λ tm kv, map_insert_kv kv tm) ∅ (filter P (MemIdMap_walk C m)) = filter P m.
Proof.
  apply map_eq. intros k. rewrite insert_kv_lookup, lookup_empty.
  rewrite map_filter_alt. f_equal. symmetry. apply list_to_map_proper.
  - apply (sublist_NoDup _ (map_to_list m).*1);
      first [apply NoDup_fst_map_to_list | apply fmap_sublist, sublist_filter].
  - by rewrite (MemIdMap_walk_perm C m).
Qed.

(** The walk of [ToImmutable()] over a list of directory entries. *)
Lemma partition_loop_eq (kvs : list (string * ptr)) : ∀ tm s,
  Forall (λ kv, is_Some (heap s !! kv.2)) kvs →
  partition_loop kvs tm s =
    Defined (foldl (λ m kv, map_insert_kv kv m) tm
               (filter (λ kv, empty_at s kv.2 = true) kvs),
             MkState (mem_id_map_ s)
               (immu_mem_list_ s ++ (filter (λ kv, empty_at s kv.2 = false) kvs).*2)
               (heap s) (env s) (calls s)).
Proof.
  induction kvs as [|[k p] kvs IH]; intros tm s Hall.
  - cbn. rewrite app_nil_r. by destruct s.
  - apply Forall_cons in Hall as [[mt Hp] Hall]. cbn [snd] in Hp.
    assert (He : empty_at s p = MemTable_Empty C (mem_body mt))
      by (unfold empty_at; by rewrite Hp).
    rewrite !filter_cons. cbn [partition_loop snd]. unfold bind, deref. rewrite Hp.
    destruct (MemTable_Empty C (mem_body mt)) eqn:Hem.
    + rewrite decide_True, decide_False by (rewrite He; congruence).
      exact (IH _ _ Hall).
    + rewrite decide_False, decide_True by (rewrite He; congruence).
      unfold push_back. rewrite IH by exact Hall. cbn.
      by rewrite <- app_assoc.
Qed.

Lemma ToImmutable_all_eq s :
  dir_alloc s →
  ToImmutable_all s =
    Defined (Status_OK,
             MkState (filter (λ kv, empty_at s kv.2 = true) (mem_id_map_ s))
               (swept s) (heap s) (env s) (calls s)).
Proof.
  intros Hd. unfold ToImmutable_all, bind, get.
  rewrite partition_loop_eq.
  - cbn. by rewrite insert_kv_filter.
  - apply Forall_forall. intros [k p] Hkp.
    apply elem_of_walk in Hkp. exact (Hd k p Hkp).
Qed.

(** The sweep: one [Serialize] per buffer of the list, in order, and the
    table id of each collected. *)
Lemma serialize_collect_loop_spec wal_lsn (f : ptr → option string) (l : list ptr) :
  ∀ s (ids : gset string),
  (∀ q, tid_at s q = f q) →
  Forall (λ p, is_Some (f p)) l →
  ∃ s', serialize_collect_loop l wal_lsn ids s =
          Defined (list_to_set (omap f l) ∪ ids, s') ∧
    mem_id_map_ s' = mem_id_map_ s ∧ immu_mem_list_ s' = immu_mem_list_ s ∧
    calls s' = calls s ++ ((λ p, CallSerialize p wal_lsn) <$> l) ∧
    (∀ q, tid_at s' q = f q) ∧
    (∀ q, q ∉ l → heap s' !! q = heap s !! q).
Proof.
  induction l as [|p l IH]; intros s ids Hf Hall.
  - exists s. cbn. rewrite app_nil_r.
    repeat split; try done. unfold ret. f_equal. f_equal.
    by rewrite (left_id_L ∅ (∪)).
  - apply Forall_cons in Hall as [[t Ht] Hall].
    assert (∃ mt, heap s !! p = Some mt ∧ table_id_ mt = t) as (mt & Hp & Hmt).
    { specialize (Hf p). rewrite Ht in Hf. unfold tid_at in Hf.
      destruct (heap s !! p) as [mt|]; [|done]. exists mt. split; [done|].
      by injection Hf. }
    destruct (MemTable_Serialize C (env s) (table_id_ mt) (mem_body mt) wal_lsn)
      as [[st e'] b'] eqn:Hser.
    cbn [serialize_collect_loop]. unfold bind.
    rewrite (call_on_eq s p _ _ mt st e' b' Hp Hser).
    set (s1 := MkState _ _ _ _ _).
    unfold deref. replace (heap s1 !! p) with (Some (MkMemTable (table_id_ mt) b'))
      by (symmetry; apply lookup_insert_eq).
    cbn [table_id_].
    assert (Hf1 : ∀ q, tid_at s1 q = f q).
    { intros q. rewrite <- Hf. unfold tid_at, s1. cbn.
      destruct (decide (p = q)) as [<-|Hne].
      - by rewrite lookup_insert_eq, Hp.
      - by rewrite lookup_insert_ne. }
    destruct (IH s1 ({[table_id_ mt]} ∪ ids) Hf1 Hall)
      as (s' & Hrun & Hdir & Hq & Hc & Hf' & Hh).
    exists s'. rewrite Hrun. repeat split; try done.
    + f_equal. f_equal. cbn. rewrite Ht, Hmt. cbn.
      rewrite (assoc_L (∪)). f_equal. apply (comm_L (∪)).
    + rewrite Hc. cbn. by rewrite <- app_assoc.
    + intros q Hq'. apply not_elem_of_cons in Hq' as [Hne Hq'].
      rewrite (Hh q Hq'). cbn. by apply lookup_insert_ne.
Qed.

(** What the sweep leaves: the environment and the objects are those of
    [Serialize(wal_lsn)] applied to the buffers in turn. *)
Lemma serialize_collect_loop_effect wal_lsn (l : list ptr) : ∀ s ids out s',
  serialize_collect_loop l wal_lsn ids s = Defined (out, s') →
  (env s', heap s') = serialize_each wal_lsn l (env s) (heap s).
Proof.
  induction l as [|p l IH]; intros s ids out s'.
  - by intros [= _ <-].
  - cbn [serialize_collect_loop serialize_each]. unfold bind, call_on.
    destruct (heap s !! p) as [mt|]; [|done].
    destruct (MemTable_Serialize C _ _ _ _) as [[st e'] b'].
    unfold deref. cbn [heap]. rewrite lookup_insert_eq.
    intros Hrun. by rewrite (IH _ _ _ _ Hrun).
Qed.

Lemma Flush_all_effect s ids wal_lsn r s' :
  dir_alloc s →
  Flush_all ids wal_lsn s = Defined (r, s') →
  (env s', heap s') = serialize_each wal_lsn (swept s) (env s) (heap s).
Proof.
  intros Hd. unfold Flush_all, bind. rewrite (ToImmutable_all_eq s Hd). unfold get.
  cbn [immu_mem_list_].
  destruct (serialize_collect_loop _ _ _ _) as [[out s2]| |] eqn:Hloop; [|done..].
  cbn. intros [= _ <-]. cbn.
  by rewrite (serialize_collect_loop_effect _ _ _ _ _ _ Hloop).
Qed.

Lemma elem_of_promoted s p :
  p ∈ promoted s ↔ ∃ k, mem_id_map_ s !! k = Some p ∧ empty_at s p = false.
Proof.
  unfold promoted. rewrite list_elem_of_fmap. split.
  - intros ([k q] & -> & Hkq). apply list_elem_of_filter in Hkq as [He Hkq].
    apply elem_of_walk in Hkq. by exists k.
  - intros (k & Hk & He). exists (k, p). split; [done|].
    apply list_elem_of_filter. split; [done|]. by apply elem_of_walk.
Qed.

Lemma swept_alloc s :
  dir_alloc s → queue_alloc s → Forall (λ p, is_Some (tid_at s p)) (swept s).
Proof.
  intros Hd Hq. unfold swept, tid_at. apply Forall_app. split.
  - eapply Forall_impl; [exact Hq|]. intros p Hp. by apply fmap_is_Some.
  - apply Forall_forall. intros p Hp. apply elem_of_promoted in Hp as (k & Hk & _).
    apply fmap_is_Some. exact (Hd k p Hk).
Qed.

(** The whole of [Flush(table_ids, wal_lsn)]: what it returns does not
    depend on what the caller's set held. *)
Lemma Flush_all_run s wal_lsn :
  dir_alloc s → queue_alloc s →
  ∃ s',
    (∀ ids, Flush_all ids wal_lsn s =
              Defined ((Status_OK, list_to_set (omap (tid_at s) (swept s))), s')) ∧
    mem_id_map_ s' = filter (λ kv, empty_at s kv.2 = true) (mem_id_map_ s) ∧
    immu_mem_list_ s' = [] ∧
    calls s' = calls s ++ ((λ p, CallSerialize p wal_lsn) <$> swept s) ∧
    (∀ q, tid_at s' q = tid_at s q) ∧
    (∀ q, q ∉ swept s → heap s' !! q = heap s !! q).
Proof.
  intros Hd Hq. unfold Flush_all, bind.
  rewrite (ToImmutable_all_eq s Hd). unfold get.
  set (s1 := MkState _ _ _ _ _).
  destruct (serialize_collect_loop_spec wal_lsn (tid_at s) (swept s) s1 ∅)
    as (s2 & Hrun & Hdir & _ & Hc & Hf & Hh); [done|by apply swept_alloc|].
  cbn [immu_mem_list_ s1]. rewrite Hrun. cbn.
  eexists. split; [intros _; by rewrite (right_id_L ∅ (∪))|]. cbn.
  by repeat split.
Qed.

(** C3: [Flush(table_ids, wal_lsn)] walks the directory and moves exactly
    the buffers whose [Empty()] is false to the queue, behind the buffers
    already waiting and in the order of the walk; buffers whose [Empty()]
    is true stay in the directory and are not among the moved ones.  It
    then calls [Serialize(wal_lsn)] on every buffer of the queue, in queue
    order, and on no other: the environment and the buffers on return are
    those that these calls, with this [wal_lsn], leave.  On return
    [table_ids] holds exactly the table ids of the buffers it serialized,
    the queue is empty, and the status is OK. *)
Theorem Flush_all_spec s ids wal_lsn :
  dir_alloc s → queue_alloc s →
  ∃ out s',
    result_of (ToImmutable_all s) = Some Status_OK ∧
    (immu_mem_list_ <$> state_of (ToImmutable_all s)) = Some (immu_mem_list_ s ++ promoted s) ∧
    Flush_all ids wal_lsn s = Defined ((Status_OK, out), s') ∧
    (∀ p, p ∈ promoted s ↔ ∃ k, mem_id_map_ s !! k = Some p ∧ empty_at s p = false) ∧
    (∀ k p, mem_id_map_ s' !! k = Some p ↔
              mem_id_map_ s !! k = Some p ∧ empty_at s p = true) ∧
    calls s' = calls s ++ ((λ p, CallSerialize p wal_lsn) <$> (immu_mem_list_ s ++ promoted s)) ∧
    (env s', heap s')
      = serialize_each wal_lsn (immu_mem_list_ s ++ promoted s) (env s) (heap s) ∧
    (xor_inv s → ∀ k p, mem_id_map_ s !! k = Some p → empty_at s p = true →
       p ∉ immu_mem_list_ s ++ promoted s) ∧
    (∀ x, x ∈ out ↔ ∃ p, p ∈ immu_mem_list_ s ++ promoted s ∧ tid_at s p = Some x) ∧
    immu_mem_list_ s' = [].
Proof.
  intros Hd Hq.
  destruct (Flush_all_run s wal_lsn Hd Hq) as (s' & Hrun & Hdir & Hq' & Hc & _ & _).
  exists (list_to_set (omap (tid_at s) (swept s))), s'.
  rewrite (ToImmutable_all_eq s Hd). cbn.
  split; [done|]. split; [done|]. split; [apply Hrun|].
  split; [apply elem_of_promoted|].
  split; [|split; [done|split; [|split; [|split; [|done]]]]].
  - intros k p. rewrite Hdir. by rewrite map_lookup_filter_Some.
  - exact (Flush_all_effect s ids wal_lsn _ s' Hd (Hrun ids)).
  - intros Hx k p Hk He Hin. apply elem_of_app in Hin as [Hin|Hin].
    + exact (Hx k p Hk Hin).
    + apply elem_of_promoted in Hin as (_ & _ & He'). congruence.
  - intros x. rewrite elem_of_list_to_set, list_elem_of_omap. naive_solver.
Qed.

(** C10: [Flush(table_ids, wal_lsn)] returns OK in every state, and what
    [table_ids] holds on return does not depend on what it held at the
    call: the set is emptied before it is filled.  In particular, when no
    buffer waits in the queue and every buffer of the directory is empty
    (or there is none), [table_ids] is empty on return. *)
Theorem Flush_all_ok_and_clears s wal_lsn :
  dir_alloc s → queue_alloc s →
  ∃ out s',
    (∀ ids, Flush_all ids wal_lsn s = Defined ((Status_OK, out), s')) ∧
    (∀ x, x ∈ out ↔ ∃ p, p ∈ immu_mem_list_ s ++ promoted s ∧ tid_at s p = Some x) ∧
    (immu_mem_list_ s = [] →
     (∀ k p, mem_id_map_ s !! k = Some p → empty_at s p = true) →
     out = ∅).
Proof.
  intros Hd Hq.
  destruct (Flush_all_run s wal_lsn Hd Hq) as (s' & Hrun & _).
  exists (list_to_set (omap (tid_at s) (swept s))), s'.
  split; [done|]. split.
  - intros x. rewrite elem_of_list_to_set, list_elem_of_omap. naive_solver.
  - intros Hnil Hall. unfold swept. rewrite Hnil. cbn.
    assert (promoted s = []) as ->; [|done].
    apply elem_of_nil_inv. intros p Hp.
    apply elem_of_promoted in Hp as (k & Hk & He). specialize (Hall k p Hk). congruence.
Qed.

End FlushAll.

(** ** The invariant of the collections *)
Section Invariant.
Context {C : Collab}.
Implicit Types (s : State C) (t : string) (p : ptr).

Lemma bind_Defined {A B} (m : M A) (k : A → M B) s b s' :
  bind m k s = Defined (b, s') →
  ∃ a s1, m s = Defined (a, s1) ∧ k a s1 = Defined (b, s').
Proof.
  unfold bind. destruct (m s) as [[a s1]| |]; [|done..]. intros H. by exists a, s1.
Qed.

Lemma alloc_tid s p : is_Some (heap s !! p) ↔ is_Some (tid_at s p).
Proof. unfold tid_at. by rewrite fmap_is_Some. Qed.

(** Dropping entries of the directory or of the queue keeps the
    invariant, as long as every object keeps its table id. *)
Lemma Inv_shrink s s' :
  (∀ k p, mem_id_map_ s' !! k = Some p → mem_id_map_ s !! k = Some p) →
  (∀ p, p ∈ immu_mem_list_ s' → p ∈ immu_mem_list_ s) →
  (∀ q, tid_at s' q = tid_at s q) →
  Inv s → Inv s'.
Proof.
  intros Hdir Hq Ht (Hd & Ha & Hk & Hx). repeat split.
  - intros k p Hkp. apply alloc_tid. rewrite Ht. apply alloc_tid. eauto.
  - apply Forall_forall. intros p Hp. apply alloc_tid. rewrite Ht. apply alloc_tid.
    eapply Forall_forall in Ha; eauto.
  - intros k p Hkp. cbn. rewrite Ht. eauto.
  - intros k p Hkp Hin. eapply Hx; eauto.
Qed.

Lemma Inv_call_on {R} p (c : Call) (f : Env C → string → Body C → R * Env C * Body C)
    s r s' :
  Inv s → call_on p c f s = Defined (r, s') → Inv s'.
Proof.
  intros HI. unfold call_on. destruct (heap s !! p) as [mt|] eqn:Hp; [|done].
  destruct (f _ _ _) as [[r' e'] b']. intros [= <- <-].
  eapply Inv_shrink; [..|exact HI]; cbn; try done.
  intros q. unfold tid_at. cbn. destruct (decide (p = q)) as [<-|Hne].
  - by rewrite lookup_insert_eq, Hp.
  - by rewrite lookup_insert_ne.
Qed.

Lemma Inv_GetMemByTable s t p s' :
  Inv s → GetMemByTable t s = Defined (p, s') → Inv s'.
Proof.
  intros HI Hget. pose proof HI as (Hd & Ha & Hk & Hx).
  destruct (GetMemByTable_eq s t Hd) as (p' & mt & Hbuf & Hget').
  rewrite Hget' in Hget. injection Hget as <- <-.
  unfold buffer_of in Hbuf. destruct (mem_id_map_ s !! t) as [q|] eqn:Ht.
  - destruct (heap s !! q) as [mt'|] eqn:Hq; [|done]. injection Hbuf as <- <-.
    rewrite !insert_id by done. by destruct s.
  - injection Hbuf as <- <-. set (p := fresh (dom (heap s))).
    pose proof (fresh_not_alloc s) as Hfresh. fold p in Hfresh.
    assert (Hold : ∀ q, is_Some (heap s !! q) → q ≠ p).
    { intros q [mt Hq] ->. congruence. }
    repeat split.
    + intros k q Hkq. cbn in *. apply lookup_insert_Some in Hkq as [[<- <-]|[Hne Hkq]].
      * by rewrite lookup_insert_eq.
      * rewrite lookup_insert_ne; [eauto|]. intros <-. by eapply Hold; eauto.
    + apply Forall_forall. intros q Hq. cbn in *.
      eapply Forall_forall in Ha; [|exact Hq].
      rewrite lookup_insert_ne; [done|]. intros <-. by eapply Hold.
    + intros k q Hkq. cbn in *. unfold tid_at. cbn.
      apply lookup_insert_Some in Hkq as [[<- <-]|[Hne Hkq]].
      * by rewrite lookup_insert_eq.
      * rewrite lookup_insert_ne; [exact (Hk k q Hkq)|].
        intros <-. by eapply Hold; eauto.
    + intros k q Hkq Hin. cbn in *.
      apply lookup_insert_Some in Hkq as [[<- <-]|[Hne Hkq]].
      * eapply Forall_forall in Ha; [|exact Hin]. by eapply Hold.
      * by eapply Hx.
Qed.

Lemma Inv_delete_loop p ids : ∀ s st s',
  Inv s → delete_loop p ids s = Defined (st, s') → Inv s'.
Proof.
  induction ids as [|id rest IH]; intros s st s' HI.
  - by intros [= <- <-].
  - cbn [delete_loop]. intros Hb. apply bind_Defined in Hb as (st1 & s1 & Hc & Hk).
    apply Inv_call_on in Hc; [|done].
    destruct (ok st1); [by eapply IH|]. by injection Hk as <- <-.
Qed.

Lemma Inv_InsertVectorsNoLock t v s r s' :
  Inv s → InsertVectorsNoLock t v s = Defined (r, s') → Inv s'.
Proof.
  intros HI Hb. unfold InsertVectorsNoLock in Hb.
  apply bind_Defined in Hb as (p & s1 & Hg & Hb). apply Inv_GetMemByTable in Hg; [|done].
  apply bind_Defined in Hb as (r1 & s2 & Hc & Hb). apply Inv_call_on in Hc; [|done].
  cbn in Hb. destruct (ok r1.1); [destruct (id_array_ v)|]; by injection Hb as <- <-.
Qed.

Lemma Inv_InsertVectors fuel t v s r s' :
  Inv s → InsertVectors fuel t v s = Defined (r, s') → Inv s'.
Proof.
  intros HI. pose proof HI as (Hd & Ha & _).
  induction fuel as [|fuel IH]; [done|].
  cbn [InsertVectors]. unfold bind. rewrite (GetCurrentMem_eq s Hd Ha).
  destruct (_ <? _)%Z; [done|]. by apply Inv_InsertVectorsNoLock.
Qed.

(** Every operation that returns leaves the invariant in place. *)
Lemma exec_Inv o s s' : Inv s → exec o s = Some s' → Inv s'.
Proof.
  intros HI. pose proof HI as (Hd & Ha & Hk & Hx).
  destruct o as [fuel t v|t id|t ids|t lsn|ids lsn|t]; cbn [exec].
  - destruct (InsertVectors fuel t v s) as [[r s1]| |] eqn:Hr; [|done..].
    intros [= <-]. by eapply Inv_InsertVectors.
  - destruct (DeleteVector t id s) as [[r s1]| |] eqn:Hr; [|done..].
    intros [= <-]. unfold DeleteVector in Hr.
    apply bind_Defined in Hr as (p & s0 & Hg & Hc).
    apply Inv_GetMemByTable in Hg; [|done]. by eapply Inv_call_on.
  - destruct (DeleteVectors t ids s) as [[r s1]| |] eqn:Hr; [|done..].
    intros [= <-]. unfold DeleteVectors in Hr.
    apply bind_Defined in Hr as (p & s0 & Hg & Hc).
    apply Inv_GetMemByTable in Hg; [|done]. by eapply Inv_delete_loop.
  - destruct (mem_id_map_ s !! t) as [p|] eqn:Ht.
    + by rewrite (Flush_table_present s t p lsn Ht).
    + rewrite (Flush_table_absent s t lsn Ht). by intros [= <-].
  - destruct (Flush_all_run s lsn Hd Ha) as (s1 & Hrun & Hdir & Hq & _ & Ht & _).
    rewrite Hrun. cbn. intros [= <-].
    eapply Inv_shrink; [..|exact HI]; [|by rewrite Hq; intros p ?%elem_of_nil|done].
    intros k p. rewrite Hdir, map_lookup_filter_Some. tauto.
  - rewrite (EraseMemVector_eq s t Ha). cbn. intros [= <-].
    eapply Inv_shrink; [..|exact HI]; cbn.
    + intros k p. rewrite lookup_delete_Some. tauto.
    + intros p. rewrite list_elem_of_filter. tauto.
    + done.
Qed.

Lemma Inv_init (e : Env C) : Inv (MkState ∅ [] ∅ e []).
Proof.
  repeat split; try apply map_Forall_empty. constructor.
Qed.

(** The invariant holds in every state a caller can bring the manager
    to. *)
Lemma reachable_Inv s : reachable s → Inv s.
Proof.
  induction 1 as [e|s o s' _ IH Hex]; [apply Inv_init|by eapply exec_Inv].
Qed.

(** A single caller never finds a buffer waiting in the queue: both
    flushes empty it before they return. *)
Lemma reachable_queue_empty s : reachable s → immu_mem_list_ s = [].
Proof.
  induction 1 as [e|s o s' Hr IH Hex]; [done|].
  pose proof (reachable_Inv s Hr) as (Hd & Ha & Hk & Hx).
  destruct o as [fuel t v|t id|t ids|t lsn|ids lsn|t]; cbn [exec] in Hex.
  - destruct (InsertVectors fuel t v s) as [[r s1]| |] eqn:Hrun; [|done..].
    injection Hex as <-. revert Hrun. induction fuel as [|fuel IHf]; [done|].
    cbn [InsertVectors]. unfold bind. rewrite (GetCurrentMem_eq s Hd Ha).
    destruct (_ <? _)%Z; [done|]. intros Hrun. unfold InsertVectorsNoLock in Hrun.
    apply bind_Defined in Hrun as (p & s0 & Hg & Hrun).
    destruct (GetMemByTable_eq s t Hd) as (p' & mt & _ & Hg'). rewrite Hg' in Hg.
    injection Hg as <- <-.
    apply bind_Defined in Hrun as (r1 & s2 & Hc & Hrun).
    unfold call_on in Hc. cbn in Hc. rewrite lookup_insert_eq in Hc.
    destruct (MemTable_Add _ _ _ _ _) as [[[? ?] ?] ?]. injection Hc as <- <-.
    cbn in Hrun. destruct (ok _); [destruct (id_array_ v)|]; by injection Hrun as <- <-.
  - destruct (DeleteVector t id s) as [[r s1]| |] eqn:Hrun; [|done..].
    injection Hex as <-. unfold DeleteVector in Hrun.
    apply bind_Defined in Hrun as (p & s0 & Hg & Hc).
    destruct (GetMemByTable_eq s t Hd) as (p' & mt & _ & Hg'). rewrite Hg' in Hg.
    injection Hg as <- <-.
    unfold call_on in Hc. cbn in Hc. rewrite lookup_insert_eq in Hc.
    destruct (MemTable_Delete _ _ _ _ _) as [[? ?] ?]. by injection Hc as <- <-.
  - destruct (DeleteVectors_queue s t ids Hd) as (st & s1 & Hrun & Hq).
    rewrite Hrun in Hex. injection Hex as <-. by rewrite Hq.
  - destruct (mem_id_map_ s !! t) as [p|] eqn:Ht.
    + by rewrite (Flush_table_present s t p lsn Ht) in Hex.
    + rewrite (Flush_table_absent s t lsn Ht) in Hex. by injection Hex as <-.
  - destruct (Flush_all_run s lsn Hd Ha) as (s1 & Hrun & _ & Hq & _).
    rewrite Hrun in Hex. by injection Hex as <-.
  - rewrite (EraseMemVector_eq s t Ha) in Hex. injection Hex as <-. cbn. by rewrite IH.
Qed.

End Invariant.

(** ** The theorems at concrete inputs *)
Section Concrete.
Import Demo.

Ltac by_decide := apply (bool_decide_unpack _); vm_compute; exact I.

Lemma demo_dir_alloc_abq : dir_alloc s_abq.
Proof. unfold dir_alloc. by_decide. Defined.

Lemma demo_queue_alloc_abq : queue_alloc s_abq.
Proof. unfold queue_alloc. by_decide. Defined.

Lemma demo_keys_ok_abq : keys_ok s_abq.
Proof. unfold keys_ok. by_decide. Defined.

Lemma demo_dir_alloc_t : dir_alloc s_t.
Proof. unfold dir_alloc. by_decide. Defined.

Lemma demo_queue_alloc_t : queue_alloc s_t.
Proof. unfold queue_alloc. by_decide. Defined.

Lemma demo_ids_contract : ids_contract collab.
Proof.
  intros e t b v st e' b' src'. cbn. unfold add. intros H Hok Hnil.
  rewrite Hnil in H. injection H as <- <- <- <-. cbn.
  unfold next_ids. by rewrite length_fmap, length_seq.
Defined.

(** Flushing a table nobody wrote to, on the manager as constructed (the
    scenario "flush-unknown"): the status is [DB_ERROR]. *)
Lemma Flush_table_absent_status_witness :
  mem_id_map_ init !! "missing" = None ∧
  result_of (ToImmutable_table "missing" init)
    = Some (MkStatus DB_NOT_FOUND (err_not_found "missing")) ∧
  result_of (Flush_table "missing" 1 init)
    = Some (MkStatus DB_ERROR (err_not_found "missing")).
Proof.
  split; [reflexivity|].
  apply (Flush_table_absent_status init "missing" 1). reflexivity.
Defined.

(** The claim C1 as stated fails there: the status returned is not a
    [DB_NOT_FOUND] status. *)
Lemma Flush_table_absent_not_NOT_FOUND :
  mem_id_map_ init !! "missing" = None ∧
  ¬ ∃ st, result_of (Flush_table "missing" 1 init) = Some st ∧ code st = DB_NOT_FOUND.
Proof.
  split; [reflexivity|]. intros (st & Hst & Hcode).
  vm_compute in Hst. injection Hst as <-. discriminate.
Qed.

Lemma Flush_table_absent_state_witness :
  mem_id_map_ s_abq !! "zz" = None ∧
  state_of (Flush_table "zz" 1 s_abq) = Some s_abq ∧
  ∀ s', state_of (Flush_table "zz" 1 s_abq) = Some s' →
    mem_id_map_ s' = mem_id_map_ s_abq ∧ immu_mem_list_ s' = immu_mem_list_ s_abq ∧
    heap s' = heap s_abq ∧ calls s' = calls s_abq.
Proof.
  split; [reflexivity|].
  apply (Flush_table_absent_state s_abq "zz" 1). reflexivity.
Defined.

(** Insert three vectors into "t", then flush "t" (the scenario
    "round-trip ids"). *)
Lemma Flush_table_found_undefined_witness :
  mem_id_map_ s_t !! "t" = Some 1%positive ∧
  Flush_table "t" 7 s_t = Undefined ∧
  result_of (Flush_table "t" 7 s_t) = None ∧ state_of (Flush_table "t" 7 s_t) = None.
Proof.
  split; [reflexivity|].
  apply (Flush_table_found_undefined s_t "t" 1%positive 7). reflexivity.
Defined.

Lemma ToImmutable_table_found_undefined_witness :
  mem_id_map_ s_t !! "t" = Some 1%positive ∧
  let memIt := map_find (mem_id_map_ s_t) "t" in
  iter_second (mem_id_map_ s_t) memIt = Some 1%positive ∧
  iter_second (map_erase_at (mem_id_map_ s_t) memIt) memIt = None ∧
  ToImmutable_table "t" s_t = Undefined.
Proof.
  split; [reflexivity|].
  apply (ToImmutable_table_found_undefined s_t "t" 1%positive). reflexivity.
Defined.

Lemma EraseMemVector_spec_witness :
  queue_alloc s_abq ∧ keys_ok s_abq ∧
  ∃ s', EraseMemVector "c" s_abq = Defined (Status_OK, s') ∧
    (∀ k p, mem_id_map_ s' !! k = Some p → tid_at s' p ≠ Some "c") ∧
    (∀ p, p ∈ immu_mem_list_ s' → tid_at s' p ≠ Some "c") ∧
    (∀ k, k ≠ "c" → mem_id_map_ s' !! k = mem_id_map_ s_abq !! k) ∧
    mem_id_map_ s' = delete "c" (mem_id_map_ s_abq) ∧
    immu_mem_list_ s' = filter (λ p, tid_at s_abq p ≠ Some "c") (immu_mem_list_ s_abq) ∧
    immu_mem_list_ s' `sublist_of` immu_mem_list_ s_abq ∧
    heap s' = heap s_abq ∧ calls s' = calls s_abq.
Proof.
  split; [exact demo_queue_alloc_abq|]. split; [exact demo_keys_ok_abq|].
  exact (EraseMemVector_spec s_abq "c" demo_queue_alloc_abq demo_keys_ok_abq).
Defined.

(** Deleting [1; -2; 3] from "t": the second id is refused. *)
Lemma DeleteVectors_spec_witness :
  dir_alloc s_t ∧
  ∃ p mt st s', buffer_of s_t "t" = Some (p, mt) ∧
    DeleteVectors "t" [1; -2; 3]%Z s_t = Defined (st, s') ∧
    ((∃ sts e' b',
        apply_deletes (env s_t) (table_id_ mt) (mem_body mt) [1; -2; 3]%Z = (sts, e', b') ∧
        Forall (λ x, ok x = true) sts ∧
        st = Status_OK ∧
        calls s' = calls s_t ++ (CallDelete p <$> [1; -2; 3]%Z) ∧
        env s' = e' ∧ heap s' !! p = Some (MkMemTable (table_id_ mt) b')) ∨
     (∃ pre id post sts e1 b1 e' b',
        [1; -2; 3]%Z = pre ++ id :: post ∧
        apply_deletes (env s_t) (table_id_ mt) (mem_body mt) pre = (sts, e1, b1) ∧
        Forall (λ x, ok x = true) sts ∧
        MemTable_Delete collab e1 (table_id_ mt) b1 id = (st, e', b') ∧
        ok st = false ∧
        calls s' = calls s_t ++ (CallDelete p <$> (pre ++ [id])) ∧
        env s' = e' ∧ heap s' !! p = Some (MkMemTable (table_id_ mt) b'))).
Proof.
  split; [exact demo_dir_alloc_t|].
  exact (DeleteVectors_spec s_t "t" [1; -2; 3]%Z demo_dir_alloc_t).
Defined.

(** A second batch without ids into "t". *)
Lemma InsertVectors_spec_witness :
  dir_alloc s_t ∧ queue_alloc s_t ∧ (current_mem s_t ≤ insert_buffer_size_ collab)%Z ∧
  ids_contract collab ∧
  ∃ p mt st e' b' src' v' s',
    buffer_of s_t "t" = Some (p, mt) ∧
    MemTable_Add collab (env s_t) (table_id_ mt) (mem_body mt)
      (VectorSource_init collab (batch [4; 5]%Z [])) = (st, e', b', src') ∧
    InsertVectors 1 "t" (batch [4; 5]%Z []) s_t = Defined ((st, v'), s') ∧
    (ok st = true → id_array_ (batch [4; 5]%Z []) = [] →
       id_array_ v' = GetVectorIds collab src' ∧
       vector_count_ v' = vector_count_ (batch [4; 5]%Z []) ∧
       vectors_payload v' = vectors_payload (batch [4; 5]%Z []) ∧
       (ids_contract collab → length (id_array_ v') = vector_count_ v')) ∧
    (id_array_ (batch [4; 5]%Z []) ≠ [] ∨ ok st = false → v' = batch [4; 5]%Z []).
Proof.
  assert (Hle : (current_mem s_t ≤ insert_buffer_size_ collab)%Z)
    by (vm_compute; discriminate).
  split; [exact demo_dir_alloc_t|]. split; [exact demo_queue_alloc_t|].
  split; [exact Hle|]. split; [exact demo_ids_contract|].
  exact (InsertVectors_spec s_t "t" (batch [4; 5]%Z []) 0
           demo_dir_alloc_t demo_queue_alloc_t Hle).
Defined.

(** Flushing all tables with an untouched "a", a written "b" and a buffer
    of "c" already waiting (the scenario "empty tables skip promotion"). *)
Lemma Flush_all_spec_witness :
  dir_alloc s_abq ∧ queue_alloc s_abq ∧
  ∃ out s',
    result_of (ToImmutable_all s_abq) = Some Status_OK ∧
    (immu_mem_list_ <$> state_of (ToImmutable_all s_abq))
      = Some (immu_mem_list_ s_abq ++ promoted s_abq) ∧
    Flush_all {[ "zz" ]} 5 s_abq = Defined ((Status_OK, out), s') ∧
    (∀ p, p ∈ promoted s_abq ↔
            ∃ k, mem_id_map_ s_abq !! k = Some p ∧ empty_at s_abq p = false) ∧
    (∀ k p, mem_id_map_ s' !! k = Some p ↔
              mem_id_map_ s_abq !! k = Some p ∧ empty_at s_abq p = true) ∧
    calls s' = calls s_abq ++
      ((λ p, CallSerialize p 5) <$> (immu_mem_list_ s_abq ++ promoted s_abq)) ∧
    (env s', heap s')
      = serialize_each 5 (immu_mem_list_ s_abq ++ promoted s_abq) (env s_abq) (heap s_abq) ∧
    (xor_inv s_abq → ∀ k p, mem_id_map_ s_abq !! k = Some p → empty_at s_abq p = true →
       p ∉ immu_mem_list_ s_abq ++ promoted s_abq) ∧
    (∀ x, x ∈ out ↔
            ∃ p, p ∈ immu_mem_list_ s_abq ++ promoted s_abq ∧ tid_at s_abq p = Some x) ∧
    immu_mem_list_ s' = [].
Proof.
  split; [exact demo_dir_alloc_abq|]. split; [exact demo_queue_alloc_abq|].
  exact (Flush_all_spec s_abq {[ "zz" ]} 5 demo_dir_alloc_abq demo_queue_alloc_abq).
Defined.

Lemma demo_dir_alloc_a : dir_alloc s_a.
Proof. unfold dir_alloc. by_decide. Defined.

Lemma demo_queue_alloc_a : queue_alloc s_a.
Proof. unfold queue_alloc. by_decide. Defined.

(** Flushing all tables when the only buffer is untouched. *)
Lemma Flush_all_ok_and_clears_witness :
  dir_alloc s_a ∧ queue_alloc s_a ∧
  ∃ out s',
    (∀ ids, Flush_all ids 5 s_a = Defined ((Status_OK, out), s')) ∧
    (∀ x, x ∈ out ↔
            ∃ p, p ∈ immu_mem_list_ s_a ++ promoted s_a ∧ tid_at s_a p = Some x) ∧
    (immu_mem_list_ s_a = [] →
     (∀ k p, mem_id_map_ s_a !! k = Some p → empty_at s_a p = true) →
     out = ∅).
Proof.
  split; [exact demo_dir_alloc_a|]. split; [exact demo_queue_alloc_a|].
  exact (Flush_all_ok_and_clears s_a 5 demo_dir_alloc_a demo_queue_alloc_a).
Defined.

(** The runs above, evaluated. *)
Example run_insert_t :
  result_of (InsertVectors 1 "t" (batch [1; 2; 3]%Z []) init)
    = Some (Status_OK, MkVectorsData 3 [1; 2; 3]%Z [100; 101; 102]%Z).
Proof. vm_compute. reflexivity. Qed.

Example run_flush_all_abq :
  (λ r, (r.1, elements r.2)) <$> result_of (Flush_all {[ "zz" ]} 5 s_abq)
    = Some (Status_OK, ["c"; "b"]) ∧
  (calls <$> state_of (Flush_all {[ "zz" ]} 5 s_abq))
    = Some [CallSerialize 3%positive 5; CallSerialize 2%positive 5] ∧
  (map_to_list <$> (mem_id_map_ <$> state_of (Flush_all {[ "zz" ]} 5 s_abq)))
    = Some [("a", 1%positive)].
Proof. vm_compute. done. Qed.

(** "b" is walked, promoted and serialized before "c". *)
Example run_flush_all_bc :
  promoted s_bc = [1%positive; 2%positive] ∧
  (immu_mem_list_ <$> state_of (ToImmutable_all s_bc)) = Some [1%positive; 2%positive] ∧
  (calls <$> state_of (Flush_all ∅ 5 s_bc))
    = Some [CallSerialize 1%positive 5; CallSerialize 2%positive 5].
Proof. vm_compute. done. Qed.

Example run_flush_all_a :
  (λ r, (r.1, elements r.2)) <$> result_of (Flush_all {[ "zz" ]} 5 s_a)
    = Some (Status_OK, []).
Proof. vm_compute. reflexivity. Qed.

Example run_delete_t :
  result_of (DeleteVectors "t" [1; -2; 3]%Z s_t) = Some (MkStatus (OtherError 7) "bad id") ∧
  (calls <$> state_of (DeleteVectors "t" [1; -2; 3]%Z s_t))
    = Some [CallAdd 1%positive; CallDelete 1%positive 1%Z; CallDelete 1%positive (-2)%Z].
Proof. vm_compute. done. Qed.

Example run_erase_abq :
  (immu_mem_list_ <$> state_of (EraseMemVector "c" s_abq)) = Some [] ∧
  (immu_mem_list_ <$> state_of (EraseMemVector "b" s_abq)) = Some [3%positive] ∧
  (map_to_list <$> (mem_id_map_ <$> state_of (EraseMemVector "b" s_abq)))
    = Some [("a", 1%positive)].
Proof. vm_compute. done. Qed.

End Concrete.

(** ** Resolving buffers: round trip and frame *)
Section Resolve.
Context {C : Collab}.
Implicit Types (s : State C) (t : string) (p : ptr).

Lemma GetMemByTable_present s t p :
  mem_id_map_ s !! t = Some p → GetMemByTable t s = Defined (p, s).
Proof.
  intros H. unfold GetMemByTable, bind, get, map_find. rewrite H. cbn. by rewrite H.
Qed.

Lemma GetMemByTable_absent s t :
  mem_id_map_ s !! t = None →
  GetMemByTable t s =
    Defined (fresh (dom (heap s)),
             MkState (<[t := fresh (dom (heap s))]> (mem_id_map_ s)) (immu_mem_list_ s)
               (<[fresh (dom (heap s)) := MkMemTable t (MemTable_init C t)]> (heap s))
               (env s) (calls s)).
Proof.
  intros H. unfold GetMemByTable, bind, get, map_find. by rewrite H.
Qed.

Lemma GetMemByTable_lookup s t p s' :
  GetMemByTable t s = Defined (p, s') → mem_id_map_ s' !! t = Some p.
Proof.
  destruct (mem_id_map_ s !! t) as [q|] eqn:Ht.
  - rewrite (GetMemByTable_present s t q Ht). by intros [= <- <-].
  - rewrite (GetMemByTable_absent s t Ht). intros [= <- <-]. cbn. apply lookup_insert_eq.
Qed.

(** X1: [GetMemByTable(t)] files the buffer it returns under [t], and asking
    again gives the same buffer without changing anything.  A table that
    had a buffer keeps it and the state is untouched; a table that had
    none gets a new object (at the address of no earlier object) with the
    initial body.  Entries of other tables, all earlier objects, the
    queue and the log of calls are as before. *)
Theorem GetMemByTable_roundtrip s t :
  ∃ p s', GetMemByTable t s = Defined (p, s') ∧
    mem_id_map_ s' !! t = Some p ∧
    GetMemByTable t s' = Defined (p, s') ∧
    (∀ k, k ≠ t → mem_id_map_ s' !! k = mem_id_map_ s !! k) ∧
    (∀ q mt, heap s !! q = Some mt → heap s' !! q = Some mt) ∧
    immu_mem_list_ s' = immu_mem_list_ s ∧ env s' = env s ∧ calls s' = calls s ∧
    (is_Some (mem_id_map_ s !! t) → s' = s) ∧
    (mem_id_map_ s !! t = None →
       heap s !! p = None ∧ heap s' !! p = Some (MkMemTable t (MemTable_init C t))).
Proof.
  destruct (mem_id_map_ s !! t) as [q|] eqn:Ht.
  - exists q, s. rewrite (GetMemByTable_present s t q Ht). by repeat split.
  - eexists _, _. rewrite (GetMemByTable_absent s t Ht). split; [reflexivity|].
    set (p := fresh (dom (heap s))). cbn [mem_id_map_ immu_mem_list_ heap env calls].
    assert (Hp : heap s !! p = None) by apply fresh_not_alloc.
    split; [apply lookup_insert_eq|]. split.
    { apply GetMemByTable_present. cbn. apply lookup_insert_eq. }
    split; [intros k Hk; by apply lookup_insert_ne|].
    split.
    { intros q mt Hq. rewrite lookup_insert_ne; [done|]. intros <-. congruence. }
    split; [done|]. split; [done|]. split; [done|]. split.
    { intros [q Hq]. congruence. }
    intros _. split; [done|]. apply lookup_insert_eq.
Qed.

End Resolve.

(** ** More on deletes and inserts *)
Section DeleteMore.
Context {C : Collab}.
Implicit Types (s : State C) (t : string) (p : ptr) (ids : IDNumbers).

(** X2: [DeleteVector(table_id, id)] makes exactly one call, [Delete(id)] on
    the buffer of the table (a new buffer when the table had none), and
    returns its status as it is.  The queue, the other entries of the
    directory and the other objects are untouched. *)
Theorem DeleteVector_spec s t id :
  dir_alloc s →
  ∃ p mt st e' b' s',
    buffer_of s t = Some (p, mt) ∧
    MemTable_Delete C (env s) (table_id_ mt) (mem_body mt) id = (st, e', b') ∧
    DeleteVector t id s = Defined (st, s') ∧
    calls s' = calls s ++ [CallDelete p id] ∧
    env s' = e' ∧ heap s' !! p = Some (MkMemTable (table_id_ mt) b') ∧
    mem_id_map_ s' !! t = Some p ∧
    (∀ k, k ≠ t → mem_id_map_ s' !! k = mem_id_map_ s !! k) ∧
    (∀ q, q ≠ p → heap s' !! q = heap s !! q) ∧
    immu_mem_list_ s' = immu_mem_list_ s.
Proof.
  intros Hd. destruct (GetMemByTable_eq s t Hd) as (p & mt & Hbuf & Hget).
  destruct (MemTable_Delete C (env s) (table_id_ mt) (mem_body mt) id)
    as [[st e'] b'] eqn:Hdel.
  unfold DeleteVector, bind. rewrite Hget.
  set (s0 := MkState _ _ _ _ _).
  assert (Hp : heap s0 !! p = Some mt) by apply lookup_insert_eq.
  rewrite (call_on_eq s0 p _ _ mt st e' b' Hp Hdel).
  eexists p, mt, st, e', b', _. split; [done|]. split; [done|]. split; [reflexivity|].
  cbn. split; [done|]. split; [done|]. split; [apply lookup_insert_eq|].
  split; [apply lookup_insert_eq|]. split; [intros k Hk; by apply lookup_insert_ne|].
  split; [|done]. intros q Hq. by rewrite !lookup_insert_ne.
Qed.

(** X3: [DeleteVectors] with no id returns OK and calls nothing, but it has
    resolved the buffer: a table that had no buffer has one afterwards. *)
Theorem DeleteVectors_nil s t :
  ∃ p s', DeleteVectors t [] s = Defined (Status_OK, s') ∧
    mem_id_map_ s' !! t = Some p ∧
    calls s' = calls s ∧ env s' = env s ∧ immu_mem_list_ s' = immu_mem_list_ s ∧
    (is_Some (mem_id_map_ s !! t) → s' = s) ∧
    (mem_id_map_ s !! t = None →
       heap s !! p = None ∧ heap s' !! p = Some (MkMemTable t (MemTable_init C t))).
Proof.
  unfold DeleteVectors, bind. destruct (mem_id_map_ s !! t) as [q|] eqn:Ht.
  - exists q, s. rewrite (GetMemByTable_present s t q Ht). by repeat split.
  - eexists _, _. rewrite (GetMemByTable_absent s t Ht). split; [reflexivity|].
    cbn [mem_id_map_ immu_mem_list_ heap env calls].
    split; [apply lookup_insert_eq|]. split; [done|]. split; [done|]. split; [done|].
    split; [intros [q Hq]; congruence|].
    intros _. split; [apply fresh_not_alloc|apply lookup_insert_eq].
Qed.

(** X4: [DeleteVectors] with one id leaves the state [DeleteVector] leaves;
    it returns the same status when the [Delete] fails, and a plain OK
    in place of the status of a [Delete] that succeeds. *)
Theorem DeleteVectors_singleton s t id :
  state_of (DeleteVectors t [id] s) = state_of (DeleteVector t id s) ∧
  result_of (DeleteVectors t [id] s)
    = (λ st, if ok st then Status_OK else st) <$> result_of (DeleteVector t id s).
Proof.
  unfold DeleteVectors, DeleteVector, bind.
  destruct (GetMemByTable t s) as [[p s0]| |]; [|done..].
  cbn [delete_loop]. unfold bind.
  destruct (call_on p _ _ s0) as [[st s1]| |]; [|done..].
  cbn. by destruct (ok st).
Qed.

Lemma delete_loop_app p ids1 ids2 : ∀ s,
  delete_loop p (ids1 ++ ids2) s =
    match delete_loop p ids1 s with
    | Defined (st, s1) => if ok st then delete_loop p ids2 s1 else Defined (st, s1)
    | Undefined => Undefined
    | Waiting => Waiting
    end.
Proof.
  induction ids1 as [|id rest IH]; intros s; [done|].
  cbn [app delete_loop]. unfold bind.
  destruct (call_on p _ _ s) as [[st s1]| |]; [|done..].
  destruct (ok st) eqn:Hok; [apply IH|]. cbn. by rewrite Hok.
Qed.

Lemma delete_loop_dir p ids : ∀ s st s',
  delete_loop p ids s = Defined (st, s') → mem_id_map_ s' = mem_id_map_ s.
Proof.
  induction ids as [|id rest IH]; intros s st s'.
  - by intros [= _ <-].
  - cbn [delete_loop]. intros Hb. apply bind_Defined in Hb as (st1 & s1 & Hc & Hk).
    assert (mem_id_map_ s1 = mem_id_map_ s) as <-.
    { unfold call_on in Hc. destruct (heap s !! p); [|done].
      destruct (MemTable_Delete _ _ _ _ _) as [[? ?] ?]. by injection Hc as _ <-. }
    destruct (ok st1); [by eapply IH|]. by injection Hk as _ <-.
Qed.

(** X5: Deleting a list of ids in two calls is deleting it in one: after
    [DeleteVectors(t, ids1)] returned OK, [DeleteVectors(t, ids2)] does
    what the rest of [DeleteVectors(t, ids1 ++ ids2)] does; and if the
    first call failed, the call on the whole list fails the same way, in
    the same state, without touching [ids2]. *)
Theorem DeleteVectors_app s t ids1 ids2 st1 s1 :
  DeleteVectors t ids1 s = Defined (st1, s1) →
  DeleteVectors t (ids1 ++ ids2) s =
    if ok st1 then DeleteVectors t ids2 s1 else Defined (st1, s1).
Proof.
  unfold DeleteVectors at 1. intros Hrun.
  apply bind_Defined in Hrun as (p & s0 & Hget & Hloop).
  apply GetMemByTable_lookup in Hget as Hl.
  apply delete_loop_dir in Hloop as Hdir.
  unfold DeleteVectors, bind. rewrite Hget, delete_loop_app, Hloop.
  destruct (ok st1); [|done].
  by rewrite (GetMemByTable_present s1 t p) by (by rewrite Hdir).
Qed.

End DeleteMore.

Section InsertMore.
Context {C : Collab}.
Implicit Types (s : State C) (t : string) (p : ptr) (v : VectorsData (Payload C)).

(** X6: An insert that gets past the gate makes exactly one call, [Add] on
    the buffer of the table, which the directory then holds under the
    table; it leaves the queue, the entries of other tables and the
    objects of other buffers as they were. *)
Theorem InsertVectors_frame s t v fuel :
  dir_alloc s → queue_alloc s → (current_mem s ≤ insert_buffer_size_ C)%Z →
  ∃ p r s',
    InsertVectors (S fuel) t v s = Defined (r, s') ∧
    calls s' = calls s ++ [CallAdd p] ∧
    mem_id_map_ s' !! t = Some p ∧ is_Some (heap s' !! p) ∧
    (∀ k, k ≠ t → mem_id_map_ s' !! k = mem_id_map_ s !! k) ∧
    (∀ q, q ≠ p → heap s' !! q = heap s !! q) ∧
    immu_mem_list_ s' = immu_mem_list_ s.
Proof.
  intros Hd Hq Hle. rewrite (InsertVectors_gate_open s t v fuel Hd Hq Hle).
  destruct (GetMemByTable_eq s t Hd) as (p & mt & Hbuf & Hget).
  destruct (MemTable_Add C (env s) (table_id_ mt) (mem_body mt) (VectorSource_init C v))
    as [[[st e'] b'] src'] eqn:Hadd.
  unfold InsertVectorsNoLock, bind. rewrite Hget.
  set (s0 := MkState _ _ _ _ _).
  assert (Hp : heap s0 !! p = Some mt) by apply lookup_insert_eq.
  rewrite (call_on_eq s0 p _ _ mt (st, src') e' b' Hp) by (cbn; by rewrite Hadd).
  cbn [fst snd].
  assert (∀ r, ∃ p0 r0 s',
    ret (A := Status * VectorsData (Payload C)) r
        (MkState (mem_id_map_ s0) (immu_mem_list_ s0)
           (<[p := MkMemTable (table_id_ mt) b']> (heap s0)) e' (calls s0 ++ [CallAdd p]))
      = Defined (r0, s') ∧
    calls s' = calls s ++ [CallAdd p0] ∧
    mem_id_map_ s' !! t = Some p0 ∧ is_Some (heap s' !! p0) ∧
    (∀ k, k ≠ t → mem_id_map_ s' !! k = mem_id_map_ s !! k) ∧
    (∀ q, q ≠ p0 → heap s' !! q = heap s !! q) ∧
    immu_mem_list_ s' = immu_mem_list_ s) as Hret.
  { intros r. eexists p, r, _. split; [reflexivity|]. cbn.
    split; [done|]. split; [apply lookup_insert_eq|].
    split; [rewrite lookup_insert_eq; eauto|].
    split; [intros k Hk; by apply lookup_insert_ne|].
    split; [|done]. intros q Hne. by rewrite !lookup_insert_ne. }
  destruct (ok st); [destruct (id_array_ v)|]; apply Hret.
Qed.

End InsertMore.

(** ** The footprint *)
Section FootprintFacts.
Context {C : Collab}.
Implicit Types (s : State C) (t : string) (p : ptr).

Lemma wrap64_idemp_add (a x : Z) : wrap64 (wrap64 a + x) = wrap64 (a + x).
Proof. unfold wrap64. apply Zplus_mod_idemp_l. Qed.

Lemma wrap64_range (z : Z) : (0 ≤ wrap64 z < 2 ^ 64)%Z.
Proof. unfold wrap64. apply Z.mod_pos_bound. lia. Qed.

(** Wrapping at every addition is wrapping the sum once. *)
Lemma sum_wrap_total s (l : list ptr) : ∀ acc,
  sum_wrap s l (wrap64 acc) = wrap64 (acc + total s l).
Proof.
  induction l as [|p l IH]; intros acc.
  - cbn. by rewrite Z.add_0_r.
  - unfold sum_wrap. cbn [foldl]. rewrite wrap64_idemp_add.
    fold (sum_wrap s l (wrap64 (acc + mem_at s p))). rewrite IH.
    cbn [total foldr]. f_equal. fold (total s l). lia.
Qed.

Lemma sum_wrap_zero s (l : list ptr) : sum_wrap s l 0 = wrap64 (total s l).
Proof. exact (sum_wrap_total s l 0). Qed.

Lemma total_perm s (l1 l2 : list ptr) : l1 ≡ₚ l2 → total s l1 = total s l2.
Proof.
  induction 1 as [|x l1 l2 _ IH|x y l|l1 l2 l3 _ IH1 _ IH2]; cbn.
  - done.
  - fold (total s l1). fold (total s l2). by rewrite IH.
  - lia.
  - congruence.
Qed.

Lemma total_app s (l1 l2 : list ptr) : total s (l1 ++ l2) = (total s l1 + total s l2)%Z.
Proof.
  induction l1 as [|p l1 IH]; cbn; [done|].
  fold (total s (l1 ++ l2)). fold (total s l1). rewrite IH. lia.
Qed.

(** X7: The three footprint queries return the sum of the footprints of the
    buffers of the directory, of the queue, and of both, modulo 2^64, and
    leave the state as it is.  The result is a [size_t] and does not
    depend on the order in which the directory is walked. *)
Theorem GetCurrentMem_sum s :
  dir_alloc s → queue_alloc s →
  GetCurrentMutableMem s = Defined (wrap64 (total s (dir_values s)), s) ∧
  GetCurrentImmutableMem s = Defined (wrap64 (total s (immu_mem_list_ s)), s) ∧
  GetCurrentMem s
    = Defined (wrap64 (total s (dir_values s) + total s (immu_mem_list_ s)), s) ∧
  (0 ≤ current_mem s < 2 ^ 64)%Z ∧
  (∀ l, l ≡ₚ dir_values s →
     wrap64 (sum_wrap s l 0 + sum_wrap s (immu_mem_list_ s) 0) = current_mem s).
Proof.
  intros Hd Hq.
  assert (Hcur : current_mem s
                 = wrap64 (total s (dir_values s) + total s (immu_mem_list_ s))).
  { unfold current_mem. rewrite !sum_wrap_zero. fold (dir_values s).
    rewrite wrap64_idemp_add, Z.add_comm, wrap64_idemp_add. f_equal. lia. }
  split; [|split; [|split; [|split]]].
  - unfold GetCurrentMutableMem, bind, get.
    rewrite (sum_mem_eq s _ _ (dir_alloc_values s Hd)).
    by rewrite sum_wrap_zero.
  - unfold GetCurrentImmutableMem, bind, get.
    rewrite (sum_mem_eq s _ _ Hq). by rewrite sum_wrap_zero.
  - rewrite (GetCurrentMem_eq s Hd Hq). by rewrite Hcur.
  - apply wrap64_range.
  - intros l Hl. rewrite Hcur, !sum_wrap_zero, (total_perm s l _ Hl).
    rewrite wrap64_idemp_add, Z.add_comm, wrap64_idemp_add. f_equal. lia.
Qed.

(** X8: While the footprint is above [insert_buffer_size_], [InsertVectors]
    of a single caller never gets past the gate, however long it waits:
    the gate only samples and sleeps, it does not flush. *)
Theorem InsertVectors_blocks s t (v : VectorsData (Payload C)) :
  dir_alloc s → queue_alloc s →
  (insert_buffer_size_ C < wrap64 (total s (dir_values s) + total s (immu_mem_list_ s)))%Z →
  ∀ fuel, InsertVectors fuel t v s = Waiting.
Proof.
  intros Hd Hq Hlt fuel. apply InsertVectors_gate_closed; [done..|].
  unfold current_mem. rewrite !sum_wrap_zero. fold (dir_values s).
  rewrite wrap64_idemp_add, Z.add_comm, wrap64_idemp_add.
  by rewrite (Z.add_comm (total s (immu_mem_list_ s))).
Qed.

End FootprintFacts.

(** ** How flushes and erases compose *)
Section Compose.
Context {C : Collab}.
Implicit Types (s : State C) (t : string) (p : ptr).

Lemma state_eta s :
  MkState (mem_id_map_ s) (immu_mem_list_ s) (heap s) (env s) (calls s) = s.
Proof. by destruct s. Qed.

(** With nothing waiting and only empty buffers in the directory,
    [Flush(table_ids, wal_lsn)] changes nothing and reports no table. *)
Lemma Flush_all_idle s ids wal_lsn :
  dir_alloc s → immu_mem_list_ s = [] →
  (∀ k p, mem_id_map_ s !! k = Some p → empty_at s p = true) →
  Flush_all ids wal_lsn s = Defined ((Status_OK, ∅), s).
Proof.
  intros Hd Hq He.
  assert (Hprom : promoted s = []).
  { apply elem_of_nil_inv. intros p Hp.
    apply elem_of_promoted in Hp as (k & Hk & Hne). specialize (He k p Hk). congruence. }
  unfold Flush_all, bind. rewrite (ToImmutable_all_eq s Hd). unfold get, swept.
  rewrite Hq, Hprom. cbn. unfold ret. do 2 f_equal.
  rewrite map_filter_id; [by rewrite <- Hq, state_eta|].
  intros k p Hk. exact (He k p Hk).
Qed.

(** X9: Flushing all tables twice in a row: the second flush finds nothing to
    do.  It calls [Serialize] on no buffer, reports no table and leaves
    the state as the first flush left it. *)
Theorem Flush_all_twice s ids wal_lsn :
  Inv s →
  ∃ out s1,
    Flush_all ids wal_lsn s = Defined ((Status_OK, out), s1) ∧
    ∀ ids' wal_lsn', Flush_all ids' wal_lsn' s1 = Defined ((Status_OK, ∅), s1).
Proof.
  intros HI. pose proof HI as (Hd & Hq & Hk & Hx).
  destruct (Flush_all_run s wal_lsn Hd Hq) as (s1 & Hrun & Hdir & Hq1 & _ & Ht & Hh).
  eexists _, s1. split; [apply Hrun|]. intros ids' lsn'.
  assert (HI1 : Inv s1).
  { apply (exec_Inv (OpFlushAll ids wal_lsn) s s1 HI). cbn. by rewrite Hrun. }
  apply Flush_all_idle; [apply HI1|done|].
  intros k p Hkp. rewrite Hdir in Hkp.
  apply map_lookup_filter_Some in Hkp as [Hkp He]. cbn in He.
  assert (Hnot : p ∉ swept s).
  { unfold swept. intros [Hin|Hin]%elem_of_app.
    - exact (Hx k p Hkp Hin).
    - apply elem_of_promoted in Hin as (_ & _ & Hne). congruence. }
  unfold empty_at in *. by rewrite (Hh p Hnot).
Qed.

(** X10: After [Flush(table_ids, wal_lsn)] nothing is left in the queue: the
    immutable footprint reads 0 and the whole footprint is the mutable
    one. *)
Theorem Flush_all_drains_footprint s ids wal_lsn :
  Inv s →
  ∃ r s1,
    Flush_all ids wal_lsn s = Defined (r, s1) ∧
    GetCurrentImmutableMem s1 = Defined (0%Z, s1) ∧
    GetCurrentMem s1 = GetCurrentMutableMem s1.
Proof.
  intros HI. pose proof HI as (Hd & Hq & _).
  destruct (Flush_all_run s wal_lsn Hd Hq) as (s1 & Hrun & _ & Hq1 & _).
  assert (HI1 : Inv s1).
  { apply (exec_Inv (OpFlushAll ids wal_lsn) s s1 HI). cbn. by rewrite Hrun. }
  destruct HI1 as (Hd1 & Ha1 & _).
  eexists _, s1. split; [apply Hrun|].
  assert (Him : GetCurrentImmutableMem s1 = Defined (0%Z, s1)).
  { unfold GetCurrentImmutableMem, bind, get. by rewrite Hq1. }
  split; [done|].
  assert (Hmut : GetCurrentMutableMem s1
                 = Defined (wrap64 (total s1 (dir_values s1)), s1)).
  { unfold GetCurrentMutableMem, bind, get.
    rewrite (sum_mem_eq s1 _ _ (dir_alloc_values s1 Hd1)). by rewrite sum_wrap_zero. }
  unfold GetCurrentMem, bind. rewrite Hmut, Him. unfold ret. do 2 f_equal.
  rewrite Z.add_0_r. unfold wrap64. apply Zmod_mod.
Qed.

(** X11: A table whose buffer was flushed by [Flush(table_ids, wal_lsn)] has
    no buffer any more: flushing it by name right after reports
    [DB_ERROR] and changes nothing. *)
Theorem Flush_table_after_Flush_all s ids wal_lsn t p wal_lsn' :
  dir_alloc s → queue_alloc s →
  mem_id_map_ s !! t = Some p → empty_at s p = false →
  ∃ r s1,
    Flush_all ids wal_lsn s = Defined (r, s1) ∧
    Flush_table t wal_lsn' s1 = Defined (MkStatus DB_ERROR (err_not_found t), s1).
Proof.
  intros Hd Hq Ht He.
  destruct (Flush_all_run s wal_lsn Hd Hq) as (s1 & Hrun & Hdir & _).
  eexists _, s1. split; [apply Hrun|]. apply Flush_table_absent.
  rewrite Hdir. apply map_lookup_filter_None. right. intros q Hq'. cbn.
  assert (q = p) as -> by congruence. congruence.
Qed.

Lemma alloc_filter (h : gmap ptr (MemTable C)) (P : ptr → Prop)
    `{!∀ q, Decision (P q)} (l : list ptr) :
  Forall (λ q, is_Some (h !! q)) l → Forall (λ q, is_Some (h !! q)) (filter P l).
Proof.
  intros Hl. apply Forall_forall. intros q Hq.
  apply list_elem_of_filter in Hq as [_ Hq]. eapply Forall_forall in Hl; eauto.
Qed.

(** X12: Erasing a table twice is erasing it once. *)
Theorem EraseMemVector_idempotent s t :
  queue_alloc s →
  ∃ s1, EraseMemVector t s = Defined (Status_OK, s1) ∧
        EraseMemVector t s1 = Defined (Status_OK, s1).
Proof.
  intros Hq. rewrite (EraseMemVector_eq s t Hq). eexists. split; [reflexivity|].
  set (s1 := MkState _ _ _ _ _).
  assert (Hq1 : queue_alloc s1).
  { unfold queue_alloc, s1. cbn. by apply alloc_filter. }
  rewrite (EraseMemVector_eq s1 t Hq1). unfold s1. cbn. do 2 f_equal.
  f_equal; [apply delete_delete_eq|].
  rewrite list_filter_filter. apply list_filter_iff. intros q. unfold tid_at. cbn. tauto.
Qed.

(** X13: Erasing two tables gives the same state in either order. *)
Theorem EraseMemVector_commute s t1 t2 :
  queue_alloc s →
  ∃ s1 s2 s12,
    EraseMemVector t1 s = Defined (Status_OK, s1) ∧
    EraseMemVector t2 s = Defined (Status_OK, s2) ∧
    EraseMemVector t2 s1 = Defined (Status_OK, s12) ∧
    EraseMemVector t1 s2 = Defined (Status_OK, s12).
Proof.
  intros Hq. rewrite (EraseMemVector_eq s t1 Hq), (EraseMemVector_eq s t2 Hq).
  eexists _, _, _. split; [reflexivity|]. split; [reflexivity|].
  set (s1 := MkState (delete t1 _) _ _ _ _). set (s2 := MkState (delete t2 _) _ _ _ _).
  assert (Hq1 : queue_alloc s1) by (unfold queue_alloc, s1; cbn; by apply alloc_filter).
  assert (Hq2 : queue_alloc s2) by (unfold queue_alloc, s2; cbn; by apply alloc_filter).
  rewrite (EraseMemVector_eq s1 t2 Hq1), (EraseMemVector_eq s2 t1 Hq2).
  split; [reflexivity|]. unfold s1, s2. cbn. do 2 f_equal.
  f_equal; [apply delete_delete|].
  rewrite !list_filter_filter. apply list_filter_iff. intros q. unfold tid_at. cbn. tauto.
Qed.

(** X14: After [EraseMemVector(t)] the table has no buffer: flushing it by
    name reports [DB_ERROR] and changes nothing, and the next insert or
    delete on [t] starts from a new buffer with the initial body, at the
    address of no earlier object. *)
Theorem EraseMemVector_then s t wal_lsn :
  queue_alloc s →
  ∃ s1, EraseMemVector t s = Defined (Status_OK, s1) ∧
    Flush_table t wal_lsn s1 = Defined (MkStatus DB_ERROR (err_not_found t), s1) ∧
    buffer_of s1 t = Some (fresh (dom (heap s)), MkMemTable t (MemTable_init C t)) ∧
    heap s !! fresh (dom (heap s)) = None.
Proof.
  intros Hq. rewrite (EraseMemVector_eq s t Hq). eexists. split; [reflexivity|].
  set (s1 := MkState _ _ _ _ _).
  assert (Hl : mem_id_map_ s1 !! t = None) by apply lookup_delete_eq.
  split; [by apply Flush_table_absent|]. split; [|apply fresh_not_alloc].
  unfold buffer_of. by rewrite Hl.
Qed.

End Compose.

(** ** What a single caller can reach *)
Section Reach.
Context {C : Collab}.
Implicit Types (s : State C) (t : string) (p : ptr).

(** X15: In every state a single caller can bring the manager to: every
    address the directory holds is the address of an object, that object
    reports the table id it is filed under, no two tables share a
    buffer, and no buffer is waiting in the queue. *)
Theorem reachable_invariants s :
  reachable s →
  (∀ k p, mem_id_map_ s !! k = Some p →
     ∃ mt, heap s !! p = Some mt ∧ table_id_ mt = k) ∧
  (∀ k1 k2 p, mem_id_map_ s !! k1 = Some p → mem_id_map_ s !! k2 = Some p → k1 = k2) ∧
  immu_mem_list_ s = [].
Proof.
  intros Hr. pose proof (reachable_Inv s Hr) as (Hd & _ & Hk & _).
  assert (Hobj : ∀ k p, mem_id_map_ s !! k = Some p →
            ∃ mt, heap s !! p = Some mt ∧ table_id_ mt = k).
  { intros k p Hkp. specialize (Hk k p Hkp). cbn in Hk. unfold tid_at in Hk.
    destruct (heap s !! p) as [mt|]; [|done]. exists mt. split; [done|]. by injection Hk. }
  split; [done|]. split; [|by apply reachable_queue_empty].
  intros k1 k2 p H1 H2.
  destruct (Hobj k1 p H1) as (mt1 & Hp1 & <-).
  destruct (Hobj k2 p H2) as (mt2 & Hp2 & <-). congruence.
Qed.

End Reach.

(** ** The further theorems at concrete inputs *)
Section ConcreteMore.
Import Demo.

Ltac by_decide := apply (bool_decide_unpack _); vm_compute; exact I.

Lemma demo_Inv_abq : Inv s_abq.
Proof.
  split; [exact demo_dir_alloc_abq|]. split; [exact demo_queue_alloc_abq|].
  split; [exact demo_keys_ok_abq|]. unfold xor_inv. by_decide.
Defined.

Lemma demo_dir_alloc_big : dir_alloc s_big.
Proof. unfold dir_alloc. by_decide. Defined.

Lemma demo_queue_alloc_big : queue_alloc s_big.
Proof. unfold queue_alloc. by_decide. Defined.

Lemma demo_reachable_t : reachable s_t.
Proof.
  apply (reachable_step (C := collab) init (OpInsertVectors 1 "t" (batch [1; 2; 3]%Z [])) s_t).
  - exact (reachable_init (C := collab) 100%Z).
  - vm_compute. reflexivity.
Defined.

(** A delete on "u", a table that has no buffer yet. *)
Lemma DeleteVector_spec_witness :
  dir_alloc s_t ∧
  ∃ p mt st e' b' s',
    buffer_of s_t "u" = Some (p, mt) ∧
    MemTable_Delete collab (env s_t) (table_id_ mt) (mem_body mt) 5%Z = (st, e', b') ∧
    DeleteVector "u" 5%Z s_t = Defined (st, s') ∧
    calls s' = calls s_t ++ [CallDelete p 5%Z] ∧
    env s' = e' ∧ heap s' !! p = Some (MkMemTable (table_id_ mt) b') ∧
    mem_id_map_ s' !! "u" = Some p ∧
    (∀ k, k ≠ "u" → mem_id_map_ s' !! k = mem_id_map_ s_t !! k) ∧
    (∀ q, q ≠ p → heap s' !! q = heap s_t !! q) ∧
    immu_mem_list_ s' = immu_mem_list_ s_t.
Proof.
  split; [exact demo_dir_alloc_t|].
  exact (DeleteVector_spec s_t "u" 5%Z demo_dir_alloc_t).
Defined.

Lemma DeleteVectors_app_witness :
  DeleteVectors "t" [1; 2]%Z s_t
    = Defined (Status_OK, after (DeleteVectors "t" [1; 2]%Z s_t)) ∧
  DeleteVectors "t" ([1; 2] ++ [-3; 4])%Z s_t =
    if ok Status_OK
    then DeleteVectors "t" [-3; 4]%Z (after (DeleteVectors "t" [1; 2]%Z s_t))
    else Defined (Status_OK, after (DeleteVectors "t" [1; 2]%Z s_t)).
Proof.
  assert (H : DeleteVectors "t" [1; 2]%Z s_t
              = Defined (Status_OK, after (DeleteVectors "t" [1; 2]%Z s_t)))
    by (vm_compute; reflexivity).
  split; [exact H|].
  exact (DeleteVectors_app s_t "t" [1; 2]%Z [-3; 4]%Z Status_OK _ H).
Defined.

(** A first insert into "u" while "t" has a buffer. *)
Lemma InsertVectors_frame_witness :
  dir_alloc s_t ∧ queue_alloc s_t ∧ (current_mem s_t ≤ insert_buffer_size_ collab)%Z ∧
  ∃ p r s',
    InsertVectors 1 "u" (batch [4; 5]%Z [8; 9]%Z) s_t = Defined (r, s') ∧
    calls s' = calls s_t ++ [CallAdd p] ∧
    mem_id_map_ s' !! "u" = Some p ∧ is_Some (heap s' !! p) ∧
    (∀ k, k ≠ "u" → mem_id_map_ s' !! k = mem_id_map_ s_t !! k) ∧
    (∀ q, q ≠ p → heap s' !! q = heap s_t !! q) ∧
    immu_mem_list_ s' = immu_mem_list_ s_t.
Proof.
  assert (Hle : (current_mem s_t ≤ insert_buffer_size_ collab)%Z)
    by (vm_compute; discriminate).
  split; [exact demo_dir_alloc_t|]. split; [exact demo_queue_alloc_t|].
  split; [exact Hle|].
  exact (InsertVectors_frame s_t "u" (batch [4; 5]%Z [8; 9]%Z) 0
           demo_dir_alloc_t demo_queue_alloc_t Hle).
Defined.

Lemma GetCurrentMem_sum_witness :
  dir_alloc s_abq ∧ queue_alloc s_abq ∧
  GetCurrentMutableMem s_abq = Defined (wrap64 (total s_abq (dir_values s_abq)), s_abq) ∧
  GetCurrentImmutableMem s_abq
    = Defined (wrap64 (total s_abq (immu_mem_list_ s_abq)), s_abq) ∧
  GetCurrentMem s_abq
    = Defined (wrap64 (total s_abq (dir_values s_abq) + total s_abq (immu_mem_list_ s_abq)),
               s_abq) ∧
  (0 ≤ current_mem s_abq < 2 ^ 64)%Z ∧
  (∀ l, l ≡ₚ dir_values s_abq →
     wrap64 (sum_wrap s_abq l 0 + sum_wrap s_abq (immu_mem_list_ s_abq) 0)
       = current_mem s_abq).
Proof.
  split; [exact demo_dir_alloc_abq|]. split; [exact demo_queue_alloc_abq|].
  exact (GetCurrentMem_sum s_abq demo_dir_alloc_abq demo_queue_alloc_abq).
Defined.

(** 1040 bytes buffered against a ceiling of 1024. *)
Lemma InsertVectors_blocks_witness :
  dir_alloc s_big ∧ queue_alloc s_big ∧
  (insert_buffer_size_ collab
   < wrap64 (total s_big (dir_values s_big) + total s_big (immu_mem_list_ s_big)))%Z ∧
  ∀ fuel, InsertVectors fuel "t" (batch [1]%Z []) s_big = Waiting.
Proof.
  assert (Hlt : (insert_buffer_size_ collab
    < wrap64 (total s_big (dir_values s_big) + total s_big (immu_mem_list_ s_big)))%Z)
    by (vm_compute; reflexivity).
  split; [exact demo_dir_alloc_big|]. split; [exact demo_queue_alloc_big|].
  split; [exact Hlt|].
  exact (InsertVectors_blocks s_big "t" (batch [1]%Z [])
           demo_dir_alloc_big demo_queue_alloc_big Hlt).
Defined.

Lemma Flush_all_twice_witness :
  Inv s_abq ∧
  ∃ out s1,
    Flush_all {[ "zz" ]} 5 s_abq = Defined ((Status_OK, out), s1) ∧
    ∀ ids' wal_lsn', Flush_all ids' wal_lsn' s1 = Defined ((Status_OK, ∅), s1).
Proof.
  split; [exact demo_Inv_abq|].
  exact (Flush_all_twice s_abq {[ "zz" ]} 5 demo_Inv_abq).
Defined.

Lemma Flush_all_drains_footprint_witness :
  Inv s_abq ∧
  ∃ r s1,
    Flush_all {[ "zz" ]} 5 s_abq = Defined (r, s1) ∧
    GetCurrentImmutableMem s1 = Defined (0%Z, s1) ∧
    GetCurrentMem s1 = GetCurrentMutableMem s1.
Proof.
  split; [exact demo_Inv_abq|].
  exact (Flush_all_drains_footprint s_abq {[ "zz" ]} 5 demo_Inv_abq).
Defined.

Lemma Flush_table_after_Flush_all_witness :
  dir_alloc s_abq ∧ queue_alloc s_abq ∧
  mem_id_map_ s_abq !! "b" = Some 2%positive ∧ empty_at s_abq 2%positive = false ∧
  ∃ r s1,
    Flush_all {[ "zz" ]} 5 s_abq = Defined (r, s1) ∧
    Flush_table "b" 6 s1 = Defined (MkStatus DB_ERROR (err_not_found "b"), s1).
Proof.
  split; [exact demo_dir_alloc_abq|]. split; [exact demo_queue_alloc_abq|].
  split; [reflexivity|]. split; [reflexivity|].
  exact (Flush_table_after_Flush_all s_abq {[ "zz" ]} 5 "b" 2%positive 6
           demo_dir_alloc_abq demo_queue_alloc_abq eq_refl eq_refl).
Defined.

Lemma EraseMemVector_idempotent_witness :
  queue_alloc s_abq ∧
  ∃ s1, EraseMemVector "c" s_abq = Defined (Status_OK, s1) ∧
        EraseMemVector "c" s1 = Defined (Status_OK, s1).
Proof.
  split; [exact demo_queue_alloc_abq|].
  exact (EraseMemVector_idempotent s_abq "c" demo_queue_alloc_abq).
Defined.

Lemma EraseMemVector_commute_witness :
  queue_alloc s_abq ∧
  ∃ s1 s2 s12,
    EraseMemVector "b" s_abq = Defined (Status_OK, s1) ∧
    EraseMemVector "c" s_abq = Defined (Status_OK, s2) ∧
    EraseMemVector "c" s1 = Defined (Status_OK, s12) ∧
    EraseMemVector "b" s2 = Defined (Status_OK, s12).
Proof.
  split; [exact demo_queue_alloc_abq|].
  exact (EraseMemVector_commute s_abq "b" "c" demo_queue_alloc_abq).
Defined.

Lemma EraseMemVector_then_witness :
  queue_alloc s_abq ∧
  ∃ s1, EraseMemVector "b" s_abq = Defined (Status_OK, s1) ∧
    Flush_table "b" 6 s1 = Defined (MkStatus DB_ERROR (err_not_found "b"), s1) ∧
    buffer_of s1 "b"
      = Some (fresh (dom (heap s_abq)), MkMemTable "b" (MemTable_init collab "b")) ∧
    heap s_abq !! fresh (dom (heap s_abq)) = None.
Proof.
  split; [exact demo_queue_alloc_abq|].
  exact (EraseMemVector_then s_abq "b" 6 demo_queue_alloc_abq).
Defined.

Lemma reachable_invariants_witness :
  reachable s_t ∧
  (∀ k p, mem_id_map_ s_t !! k = Some p →
     ∃ mt, heap s_t !! p = Some mt ∧ table_id_ mt = k) ∧
  (∀ k1 k2 p, mem_id_map_ s_t !! k1 = Some p → mem_id_map_ s_t !! k2 = Some p → k1 = k2) ∧
  immu_mem_list_ s_t = [].
Proof.
  split; [exact demo_reachable_t|].
  exact (reachable_invariants s_t demo_reachable_t).
Defined.

End ConcreteMore.

(** ** Locking *)
Section Locking.

Lemma held_after_app h (l1 l2 : list LockEvent) :
  held_after h (l1 ++ l2) = held_after h l1 ≫= λ h', held_after h' l2.
Proof.
  revert h. induction l1 as [|[m|m] l1 IH]; intros h; cbn; [done|..].
  - destruct h; [done|apply IH].
  - destruct h as [m'|]; [|done]. destruct (decide (m = m')); [apply IH|done].
Qed.

Lemma disciplined_app (l1 l2 : list LockEvent) :
  disciplined l1 → disciplined l2 → disciplined (l1 ++ l2).
Proof. unfold disciplined. intros H1 H2. by rewrite held_after_app, H1. Qed.

Lemma disciplined_concat (ls : list (list LockEvent)) :
  Forall disciplined ls → disciplined (concat ls).
Proof.
  induction 1 as [|l ls Hl _ IH]; [done|]. cbn. by apply disciplined_app.
Qed.

Lemma disciplined_locked (m : Mutex) : disciplined (locked m []).
Proof. by destruct m. Qed.

Lemma disciplined_GetCurrentMem (b : bool) : disciplined (locks_GetCurrentMem b).
Proof. by destruct b. Qed.

(** No way through any operation acquires a mutex while holding one. *)
Lemma locks_disciplined (r : Run) : disciplined (locks r).
Proof.
  destruct r as [first more| | |found| | | | |b]; cbn [locks];
    [|done|done|by destruct found|done..|apply disciplined_GetCurrentMem].
  unfold locks_InsertVectors. apply disciplined_app; [|apply disciplined_locked].
  apply disciplined_concat, Forall_fmap, Forall_forall. intros b _.
  apply disciplined_GetCurrentMem.
Qed.

Lemma good_start (runs : list Run) : good (start runs).
Proof.
  exists None. split; [done|]. apply disciplined_concat, Forall_fmap, Forall_forall.
  intros r _. apply locks_disciplined.
Qed.

Lemma step_good c c' : step c c' → Forall good c → Forall good c'.
Proof.
  intros [c1 c2 hs m rest Hfree|c1 c2 hs m rest Hin] Hall;
    apply Forall_app in Hall as [H1 Hall]; apply Forall_cons in Hall as [Hth H2];
    apply Forall_app; (split; [done|]); apply Forall_cons; (split; [|done]);
    destruct Hth as (h & Hh & Hrun); cbn in Hh, Hrun.
  - destruct h; [done|]. exists (Some m). cbn in Hh. by subst hs.
  - destruct h as [m'|]; [|done]. destruct (decide (m = m')) as [<-|]; [|done].
    exists None. cbn in Hh. subst hs. split; [|done]. cbn [held option_list].
    rewrite filter_cons_False; [done|]. intros H. by apply H.
Qed.

Lemma rtc_good c c' : rtc step c c' → Forall good c → Forall good c'.
Proof. induction 1; eauto using step_good. Qed.

(** Threads that each hold at most one mutex and go on in a disciplined
    way never all wait. *)
Lemma good_progress c : Forall good c → finished c ∨ (∃ c', step c c').
Proof.
  intros Hgood.
  destruct (decide (Forall (λ th, held th = []) c)) as [Hnone|Hsome].
  - destruct (decide (Forall (λ th, todo th = []) c)) as [Hfin|Hwork]; [by left|right].
    apply not_Forall_Exists in Hwork; [|apply _].
    apply Exists_exists in Hwork as (th & Hth & Hwork).
    apply list_elem_of_split in Hth as (c1 & c2 & ->).
    pose proof Hgood as Hg. apply Forall_app in Hg as [_ Hg].
    apply Forall_cons in Hg as [(h & Hh & Hrun) _].
    pose proof Hnone as Hn. apply Forall_app in Hn as [_ Hn].
    apply Forall_cons in Hn as [Hn _].
    destruct th as [hs [|[m|m] rest]]; cbn in *; [done|..]; subst hs.
    + eexists. apply step_acq. eapply Forall_impl; [exact Hnone|].
      intros th' ->. apply not_elem_of_nil.
    + by destruct h.
  - right. apply not_Forall_Exists in Hsome; [|apply _].
    apply Exists_exists in Hsome as (th & Hth & Hheld).
    apply list_elem_of_split in Hth as (c1 & c2 & ->).
    pose proof Hgood as Hg. apply Forall_app in Hg as [_ Hg].
    apply Forall_cons in Hg as [(h & Hh & Hrun) _].
    destruct th as [hs td]. cbn in *. destruct h as [m'|]; [|done]. subst hs.
    destruct td as [|[m|m] rest]; cbn in Hrun; [done..|].
    destruct (decide (m = m')) as [<-|]; [|done].
    eexists. apply step_rel. apply list_elem_of_here.
Qed.

(** C9: for any number of concurrent callers, each going through any
    operations of the manager, no deadlock occurs: whatever the
    interleaving, as long as some caller has not finished some caller can
    go on.  This rests on the lock discipline of the operations: no way
    through any of them acquires a mutex while it holds one, so the two
    are never held together; and both flushes and [EraseMemVector] take
    [mutex_] first and have released it, for good, before they take
    [serialization_mtx_]. *)
Theorem MemManager_no_deadlock :
  (∀ r, disciplined (locks r)) ∧
  (∀ r, r ∈ [RunFlush true; RunFlush false; RunFlushAll; RunEraseMemVector] →
     ∃ rest, (locks r = Acq mutex_ :: Rel mutex_ :: rest) ∧
             (Acq mutex_ ∉ rest) ∧ (Rel mutex_ ∉ rest)) ∧
  (∀ (callers : list (list Run)) c,
     rtc step (start <$> callers) c → finished c ∨ (∃ c', step c c')).
Proof.
  split; [exact locks_disciplined|]. split.
  - intros r Hr.
    repeat (apply elem_of_cons in Hr as [->|Hr]); [..|by apply elem_of_nil in Hr];
      (eexists; split; [reflexivity|]);
      split; apply (bool_decide_unpack _); vm_compute; exact I.
  - intros callers c Hreach. apply good_progress.
    apply (rtc_good _ _ Hreach). apply Forall_fmap, Forall_forall.
    intros runs _. apply good_start.
Qed.

(** Two callers, an insert followed by a flush by name against a flush of
    all tables followed by an erase, after the first has taken
    [mutex_] for its first sample of the footprint. *)
Lemma MemManager_no_deadlock_witness :
  let callers := [[RunInsertVectors true []; RunFlush true];
                  [RunFlushAll; RunEraseMemVector]] in
  let c := [MkThread [mutex_] (tail (todo (start [RunInsertVectors true []; RunFlush true])));
            start [RunFlushAll; RunEraseMemVector]] in
  rtc step (start <$> callers) c ∧ (finished c ∨ (∃ c', step c c')).
Proof.
  intros callers c.
  assert (Hreach : rtc step (start <$> callers) c).
  { eapply rtc_l; [|apply rtc_refl].
    apply (step_acq [] [start [RunFlushAll; RunEraseMemVector]] [] mutex_).
    unfold free. cbn. repeat constructor; apply not_elem_of_nil. }
  split; [exact Hreach|].
  exact (proj2 (proj2 MemManager_no_deadlock) callers c Hreach).
Defined.

(** The machine does deadlock when the discipline is broken: two threads
    that nest the two mutexes in opposite orders can both end up
    waiting. *)
Example nested_locks_deadlock :
  let t1 := MkThread [] (locked mutex_ (locked serialization_mtx_ [])) in
  let t2 := MkThread [] (locked serialization_mtx_ (locked mutex_ [])) in
  ∃ c, rtc step [t1; t2] c ∧ ¬ finished c ∧ ¬ (∃ c', step c c').
Proof.
  intros t1 t2.
  exists [MkThread [mutex_] [Acq serialization_mtx_; Rel serialization_mtx_; Rel mutex_];
          MkThread [serialization_mtx_] [Acq mutex_; Rel mutex_; Rel serialization_mtx_]].
  split; [|split].
  - eapply rtc_l.
    { apply (step_acq [] [t2] [] mutex_). unfold free. cbn.
      repeat constructor; apply not_elem_of_nil. }
    eapply rtc_l; [|apply rtc_refl].
    apply (step_acq [MkThread [mutex_] _] [] [] serialization_mtx_). unfold free. cbn.
    repeat constructor; [|apply not_elem_of_nil].
    intros H. apply list_elem_of_singleton in H. discriminate.
  - intros Hfin. apply Forall_cons in Hfin as [Hfin _]. discriminate.
  - intros (c' & Hstep). inversion Hstep as [c1 c2 hs m rest Hfree Heq|c1 c2 hs m rest Hin Heq].
    + destruct c1 as [|th1 [|th2 c1]]; cbn in Heq.
      * injection Heq as -> -> -> ->. apply Forall_cons in Hfree as [_ Hfree].
        apply Forall_cons in Hfree as [Hfree _]. apply Hfree. apply list_elem_of_here.
      * injection Heq as -> -> -> -> ->. apply Forall_cons in Hfree as [Hfree _].
        apply Hfree. apply list_elem_of_here.
      * injection Heq as _ _ Heq. by destruct c1.
    + destruct c1 as [|th1 [|th2 c1]]; cbn in Heq; [discriminate..|].
      injection Heq as _ _ Heq. by destruct c1.
Qed.

End Locking.
